(** * Literature-review pipeline: threshold sweep and context extraction

  A shallow embedding of the modules of the repository that carry
  algorithmic logic:

  - [data_processer.py], class [SignificanceAnalyzer] (module [Analyzer]);
  - [related_content_extractor.py], class [ContentExtractor]
    (module [Extractor]);
  - [judge.py], class [SignificanceJudge] (module [Judge]);
  - [parser.py], class [PDFParser] (module [Parser]);
  - [getter.py], the choice of the link in [get_paper_by_doi] and
    [download_from_scihub] (module [Getter]).

  Python integers are [Z]; the values [json.load] returns are the
  inductive type [json], objects being finite maps with string keys;
  exceptions are an error monad; the two [while True] loops take a number
  of iterations they may run ([None] means the loop has not left within
  that number).  True division and the statistics are carried out in
  exact rationals [Q]: the rounding of Python's binary floating point is
  not part of this development, and nothing is stated here that holds of
  the exact value only (that the average lies between the least and the
  greatest percentage, or that equal percentages have variance 0, is
  false of the rounded values). *)

From Stdlib Require Import ZArith QArith Lia.
From stdpp Require Import base list gmap strings pretty.

#[local] Set Warnings "-register-all".
#[local] Open Scope Z_scope.

(** ** Python values and exceptions *)

Module Py.

(** The exceptions the analysed code can raise on its own data. *)
Inductive pyerr : Set :=
| KeyError
| TypeError.

(** A computation that returns or raises. *)
Definition res (A : Type) : Type := pyerr + A.

Definition ret {A : Type} (a : A) : res A := inr a.
Definition raise {A : Type} (e : pyerr) : res A := inl e.

Definition bind {A B : Type} (m : res A) (k : A → res B) : res B :=
  match m with
  | inl e => inl e
  | inr a => k a
  end.

(** What [json.load] produces (numbers restricted to integers). *)
Inductive json : Type :=
| JNull
| JBool (b : bool)
| JInt (z : Z)
| JStr (s : string)
| JList (l : list json)
| JDict (d : gmap string json).

(** [isinstance(v, dict)] *)
Definition is_dict (v : json) : bool :=
  match v with
  | JDict _ => true
  | _ => false
  end.

(** [k in v] for a dict [v]. *)
Definition dict_has (k : string) (v : json) : bool :=
  match v with
  | JDict d => bool_decide (is_Some (d !! k))
  | _ => false
  end.

(** [v[k]] with a string key: only a dict can be subscripted this way. *)
Definition getitem (v : json) (k : string) : res json :=
  match v with
  | JDict d =>
      match d !! k with
      | Some x => ret x
      | None => raise KeyError
      end
  | _ => raise TypeError
  end.

(** The one-character strings of a string, as iteration yields them. *)
Fixpoint chars (s : string) : list json :=
  match s with
  | EmptyString => []
  | String c s' => JStr (String c EmptyString) :: chars s'
  end.

(** [for x in v]: the items the loop sees. *)
Definition iter (v : json) : res (list json) :=
  match v with
  | JList l => ret l
  | JDict d => ret (JStr <$> (map_to_list d).*1)
  | JStr s => ret (chars s)
  | _ => raise TypeError
  end.

(** [v < t] for an integer [t]; [bool] is a subclass of [int]. *)
Definition lt_int (v : json) (t : Z) : res bool :=
  match v with
  | JInt z => ret (z <? t)
  | JBool b => ret (Z.b2z b <? t)
  | _ => raise TypeError
  end.

(** Truth value of [v] in a condition. *)
Definition truthy (v : json) : bool :=
  match v with
  | JNull => false
  | JBool b => b
  | JInt z => negb (z =? 0)
  | JStr s => negb (bool_decide (s = EmptyString))
  | JList l => negb (bool_decide (l = []))
  | JDict d => negb (bool_decide (d = ∅))
  end.

End Py.

Notation "'let!' x ':=' m 'in' k" := (Py.bind m (fun x => k))
  (at level 10, x name, m at level 100, k at level 200).

(** ** [data_processer.py] *)

Module Analyzer.
Import Py.

(** One entry of the list [analyze_all_thresholds] returns (the dict
    built by [analyze_by_threshold]). *)
Record ThresholdStat : Type := mkStat {
  threshold : Z;
  total : Z;
  true_count : Z;
  false_count : Z;
  percentage : Q
}.

(** The body of the [for result in ...] loop of [_count_results], with
    the two counters threaded through. *)
Fixpoint count_loop (results : list json) (thr : Z) (tc fc : Z)
  : res (Z * Z) :=
  match results with
  | [] => ret (tc, fc)
  | result :: rest =>
      let! cc := getitem result "context_count" in
      let! below := lt_int cc thr in
      if below then
        let! sig := getitem result "is_significant" in
        if truthy sig
        then count_loop rest thr (tc + 1) fc
        else count_loop rest thr tc (fc + 1)
      else count_loop rest thr tc fc
  end.

Definition _count_results (data : json) (thr : Z) : res (Z * Z * Z) :=
  if is_dict data && dict_has "significance_results" data then
    let! sr := getitem data "significance_results" in
    let! items := iter sr in
    let! c := count_loop items thr 0 0 in
    ret (c.1 + c.2, c.1, c.2)
  else ret (0 + 0, 0, 0).

Definition analyze_by_threshold (data : json) (thr : Z)
  : res ThresholdStat :=
  let! c := _count_results data thr in
  let '(tot, tc, fc) := c in
  let pct := if 0 <? tot
             then (inject_Z tc / inject_Z tot * inject_Z 100)%Q
             else 0%Q in
  ret (mkStat thr tot tc fc pct).

(** The [while True] loop of [analyze_all_thresholds]: [n] bounds the
    number of iterations. *)
Fixpoint sweep (n : nat) (data : json) (thr prev_total : Z)
  (results : list ThresholdStat) : option (res (list ThresholdStat)) :=
  match n with
  | O => None
  | S n' =>
      match analyze_by_threshold data thr with
      | inl e => Some (raise e)
      | inr stats =>
          if (total stats =? prev_total) && (0 <? total stats)
          then Some (ret results)
          else sweep n' data (thr + 1) (total stats) (results ++ [stats])
      end
  end.

Definition analyze_all_thresholds (n : nat) (data : json)
  (start_threshold : Z) : option (res (list ThresholdStat)) :=
  sweep n data start_threshold 0 [].

(** [sum(xs)]: a left-to-right accumulation from 0. *)
Definition py_sum (xs : list Q) : Q := fold_left Qplus xs 0%Q.

Record SummaryStat : Type := mkSummary {
  average_percentage : Q;
  variance : Q
}.

(** [calculate_statistics], with the sums and quotients in [Q]: the
    formulas are the code's, their floating-point rounding is not
    modelled. *)
Definition calculate_statistics (results : list ThresholdStat)
  : option SummaryStat :=
  let percentages := percentage <$> results in
  match percentages with
  | [] => None
  | _ =>
      let len := inject_Z (Z.of_nat (length percentages)) in
      let avg := (py_sum percentages / len)%Q in
      let var :=
        (py_sum ((fun x => (x - avg) ^ 2) <$> percentages) / len)%Q in
      Some (mkSummary avg var)
  end.

(** *** The input contract: well-formed records *)

Record SignificanceRecord : Type := mkRecord {
  file_name : string;
  context_count : Z;
  is_significant : bool
}.

Definition record_json (r : SignificanceRecord) : json :=
  JDict (<["file_name" := JStr (file_name r)]>
         (<["context_count" := JInt (context_count r)]>
          (<["is_significant" := JBool (is_significant r)]> ∅))).

(** The file the judgment step writes for a list of records. *)
Definition load (records : list SignificanceRecord) : json :=
  JDict (<["significance_results" := JList (record_json <$> records)]> ∅).

(** A results file with arbitrary items under [significance_results]
    (and any other keys [d0]). *)
Definition results_file (d0 : gmap string json) (items : list json) : json :=
  JDict (<["significance_results" := JList items]> d0).

(** A record that lacks both expected fields. *)
Definition nameless : gmap string json := {["file_name" := JStr "C"]}.

(** A record with a context count and no label. *)
Definition unlabelled : gmap string json :=
  <["file_name" := JStr "C"]> {["context_count" := JInt 4]}.

(** *** The counts, stated on the records *)

(** The records a threshold admits. *)
Definition below (thr : Z) (rs : list SignificanceRecord)
  : list SignificanceRecord :=
  filter (λ r, context_count r < thr) rs.

(** How many records carry the label [b]. *)
Definition count_if (b : bool) (rs : list SignificanceRecord) : Z :=
  Z.of_nat (length (filter (λ r, is_significant r = b) rs)).

(** The number of records. *)
Definition size (rs : list SignificanceRecord) : Z := Z.of_nat (length rs).

(** The statistic of a threshold in closed form. *)
Definition stat_of (rs : list SignificanceRecord) (thr : Z) : ThresholdStat :=
  let tc := count_if true (below thr rs) in
  let fc := count_if false (below thr rs) in
  mkStat thr (tc + fc) tc fc
    (if 0 <? tc + fc
     then (inject_Z tc / inject_Z (tc + fc) * inject_Z 100)%Q
     else 0%Q).

(** The sweep leaves its loop at [t]: an iteration after the first one
    whose total repeats the total of the iteration before and is
    positive. *)
Definition stabilizes (rs : list SignificanceRecord) (start t : Z) : Prop :=
  start < t ∧
  total (stat_of rs t) = total (stat_of rs (t - 1)) ∧
  0 < total (stat_of rs t).

Definition first_stabilizing (rs : list SignificanceRecord) (start t : Z)
  : Prop :=
  stabilizes rs start t ∧ ∀ u, stabilizes rs start u → t ≤ u.

(** The loop entered at [thr] with [prev_total = prev] is left in the
    iteration for [u]. *)
Definition leaves_at (rs : list SignificanceRecord) (thr prev u : Z) : Prop :=
  total (stat_of rs u) =
    (if u =? thr then prev else total (stat_of rs (u - 1))) ∧
  0 < total (stat_of rs u).

(** The returned list ends with the entry of the stabilizing threshold. *)
Definition returns_stabilizing_entry (rs : list SignificanceRecord)
  (start : Z) : Prop :=
  ∀ n res, analyze_all_thresholds n (load rs) start = Some (ret res) →
    ∃ t, first_stabilizing rs start t ∧ last res = Some (stat_of rs t).

(** The sweep returns and its last entry counts every record. *)
Definition final_total_is_size (rs : list SignificanceRecord) (start : Z)
  : Prop :=
  ∃ n res s, analyze_all_thresholds n (load rs) start = Some (ret res) ∧
    last res = Some s ∧ total s = size rs.

(** What the loop still has to do: twice the distance to [cc_bound],
    plus one while [prev_total] is not yet the number of records. *)
Definition sweep_measure (bound n thr prev : Z) : nat :=
  (2 * Z.to_nat (bound - thr) + (if (prev =? n)%Z then 0 else 1))%nat.

(** The sum of a list of rationals. *)
Definition Qsum (xs : list Q) : Q := foldr Qplus 0%Q xs.

(** The arithmetic mean: the sum divided by the number of entries. *)
Definition mean (xs : list Q) : Q :=
  (Qsum xs / inject_Z (Z.of_nat (length xs)))%Q.

(** The sum of the squared deviations from the mean. *)
Definition squared_deviations (xs : list Q) : Q :=
  Qsum ((λ x, (x - mean xs) ^ 2)%Q <$> xs).

(** The population variance divides by the number of entries [n]. *)
Definition population_variance (xs : list Q) : Q :=
  (squared_deviations xs / inject_Z (Z.of_nat (length xs)))%Q.

(** The sample variance would divide by [n - 1]. *)
Definition sample_variance (xs : list Q) : Q :=
  (squared_deviations xs / inject_Z (Z.of_nat (length xs) - 1))%Q.

(** The records of the end-to-end scenario. *)
Definition record_A : SignificanceRecord := mkRecord "A" 1 true.
Definition record_B : SignificanceRecord := mkRecord "B" 3 false.

(** Three entries with the percentages 50, 50 and 100. *)
Definition three_stats : list ThresholdStat :=
  [mkStat 2 2 1 1 50; mkStat 3 4 2 2 50; mkStat 4 4 4 0 100].

(** An upper bound of the context counts, plus one. *)
Definition cc_bound (rs : list SignificanceRecord) : Z :=
  foldr Z.max 0 (context_count <$> rs) + 1.

End Analyzer.


(** ** [related_content_extractor.py] *)

Module Extractor.

(** A Python [str] is a sequence of Unicode code points. *)
Abbreviation str := (list N).

(** The separator of compound terms, ["+"]. *)
Definition plus_sign : N := 43%N.

(** [s.startswith(sub)] *)
Fixpoint startswith (sub s : str) : bool :=
  match sub, s with
  | [], _ => true
  | _ :: _, [] => false
  | c :: sub', d :: s' => bool_decide (c = d) && startswith sub' s'
  end.

(** [sub in s] *)
Fixpoint contains (sub s : str) : bool :=
  startswith sub s ||
  match s with
  | [] => false
  | _ :: s' => contains sub s'
  end.

(** The scan of [str.find]: [s] is what is left of the text from index
    [i] on; the lowest index at which [sub] starts, or -1. *)
Fixpoint find_scan (sub s : str) (i : Z) : Z :=
  if startswith sub s then i
  else match s with
       | [] => -1
       | _ :: s' => find_scan sub s' (i + 1)
       end.

(** [s.find(sub, start)] *)
Definition find (s sub : str) (start : Z) : Z :=
  let len := Z.of_nat (length s) in
  let st := if start <? 0 then Z.max 0 (start + len) else start in
  if len <? st then -1
  else find_scan sub (drop (Z.to_nat st) s) st.

(** How a slice bound is brought into [0, len]. *)
Definition clip_index (len i : Z) : Z :=
  if i <? 0 then Z.max 0 (i + len) else Z.min i len.

(** [s[a:b]] *)
Definition slice {A : Type} (s : list A) (a b : Z) : list A :=
  let len := Z.of_nat (length s) in
  let a' := clip_index len a in
  let b' := clip_index len b in
  take (Z.to_nat (b' - a')) (drop (Z.to_nat a') s).

(** [s.split(sep)] for a one-character separator. *)
Fixpoint split (sep : N) (s : str) : list str :=
  match s with
  | [] => [[]]
  | c :: s' =>
      if bool_decide (c = sep) then [] :: split sep s'
      else match split sep s' with
           | k :: ks => (c :: k) :: ks
           | [] => [[c]]
           end
  end.

(** [len(s)] *)
Definition len {A : Type} (s : list A) : Z := Z.of_nat (length s).

(** [range(n)] *)
Definition range (n : Z) : list Z := seqZ 0 n.

(** An entry of [self.matches]. *)
Record Match : Type := mkMatch {
  file_name : string;
  match_type : string;
  match_term : str;
  context : str
}.

(** The instance, together with what the file at [output_file] holds
    ([None]: nothing written). *)
Record ContentExtractor : Type := mkExtractor {
  context_length : Z;
  loose_match_length : Z;
  matches : list Match;
  output_file : option (list Match)
}.

(** [__init__]; [disk] is the state of the output path at that time. *)
Definition __init__ (disk : option (list Match))
  (context_length loose_match_length : Z) : ContentExtractor :=
  mkExtractor context_length loose_match_length [] disk.

Definition _add_match (self : ContentExtractor) (content : str)
  (start end_ : Z) (term : str) (txt_file : string) (mtype : string)
  : ContentExtractor :=
  let context_start := Z.max 0 (start - context_length self) in
  let context_end := Z.min (len content) (end_ + context_length self) in
  mkExtractor (context_length self) (loose_match_length self)
    (matches self ++
       [mkMatch txt_file mtype term (slice content context_start context_end)])
    (output_file self).

(** The [for i in range(...)] loop of [_loose_match], left at the first
    window that holds every keyword. *)
Fixpoint loose_scan (self : ContentExtractor) (content search_content : str)
  (keywords : list str) (term : str) (txt_file : string) (offsets : list Z)
  : ContentExtractor :=
  match offsets with
  | [] => self
  | i :: rest =>
      let window_end :=
        Z.min (i + loose_match_length self) (len search_content) in
      let window := slice search_content i window_end in
      if forallb (fun k => contains k window) keywords
      then _add_match self content i window_end term txt_file "loose_match"
      else loose_scan self content search_content keywords term txt_file rest
  end.

(** The [while True] loop of [_exact_match]; [n] bounds the number of
    iterations. *)
Fixpoint exact_loop (n : nat) (self : ContentExtractor)
  (content search_content search_term term : str) (txt_file : string)
  (start_pos : Z) : option ContentExtractor :=
  match n with
  | O => None
  | S n' =>
      let pos := find search_content search_term start_pos in
      if pos =? -1 then Some self
      else
        exact_loop n'
          (_add_match self content pos (pos + len term) term txt_file
             "exact_match")
          content search_content search_term term txt_file (pos + len term)
  end.

(** [_save_results]: the file is written only for a non-empty list. *)
Definition _save_results (self : ContentExtractor) : ContentExtractor :=
  match matches self with
  | [] => self
  | _ :: _ =>
      mkExtractor (context_length self) (loose_match_length self)
        (matches self) (Some (matches self))
  end.

Section WithLower.

(** [str.lower]: the Unicode case mapping is not reproduced, the
    development holds for any function in its place. *)
Variable lower : str → str.

Definition _loose_match (self : ContentExtractor)
  (content search_content term : str) (txt_file : string)
  (case_sensitive : bool) : ContentExtractor :=
  let keywords := split plus_sign term in
  let keywords := if case_sensitive then keywords else lower <$> keywords in
  loose_scan self content search_content keywords term txt_file
    (range (len search_content)).

Definition _exact_match (n : nat) (self : ContentExtractor)
  (content search_content term : str) (txt_file : string)
  (case_sensitive : bool) : option ContentExtractor :=
  let search_term := if case_sensitive then term else lower term in
  exact_loop n self content search_content search_term term txt_file 0.

(** The [for term in search_terms] loop of [_process_file]. *)
Fixpoint term_loop (n : nat) (self : ContentExtractor)
  (content search_content : str) (txt_file : string) (search_terms : list str)
  (case_sensitive : bool) : option ContentExtractor :=
  match search_terms with
  | [] => Some self
  | term :: rest =>
      self' ← (if contains [plus_sign] term
               then Some (_loose_match self content search_content term
                            txt_file case_sensitive)
               else _exact_match n self content search_content term txt_file
                      case_sensitive);
      term_loop n self' content search_content txt_file rest case_sensitive
  end.

(** A file of the input directory: its name and, when it can be read and
    decoded, its text. *)
Definition txt := (string * option str)%type.

Definition _process_file (n : nat) (self : ContentExtractor) (txt_file : txt)
  (search_terms : list str) (case_sensitive : bool)
  : option ContentExtractor :=
  match txt_file.2 with
  | None => Some self
  | Some content =>
      let search_content := if case_sensitive then content else lower content in
      term_loop n self content search_content txt_file.1 search_terms
        case_sensitive
  end.

(** The [for txt_file in txt_files] loop of [extract_content]. *)
Fixpoint file_loop (n : nat) (self : ContentExtractor) (txt_files : list txt)
  (search_terms : list str) (case_sensitive : bool)
  : option ContentExtractor :=
  match txt_files with
  | [] => Some self
  | txt_file :: rest =>
      self' ← _process_file n self txt_file search_terms case_sensitive;
      file_loop n self' rest search_terms case_sensitive
  end.

(** [extract_content]; [txt_files] is what the glob over [input_dir]
    lists at the time of the call. *)
Definition extract_content (n : nat) (self : ContentExtractor)
  (txt_files : list txt) (search_terms : list str) (case_sensitive : bool)
  : option ContentExtractor :=
  self' ← file_loop n self txt_files search_terms case_sensitive;
  Some (_save_results self').

End WithLower.

(** *** Notions the properties are stated with *)

(** [k] occurs in [w] as a contiguous part. *)
Definition substring (k w : str) : Prop := ∃ pre post, w = pre ++ k ++ post.

(** [sub] occurs in [s] at the offset [p]. *)
Definition occurs_at (sub s : str) (p : Z) : Prop :=
  ∃ pre post, s = pre ++ sub ++ post ∧ len pre = p.

(** The entry [_add_match] builds for the span from [start] to [end_],
    with the context length [W]. *)
Definition match_at (W : Z) (content : str) (start end_ : Z) (term : str)
  (txt_file mtype : string) : Match :=
  mkMatch txt_file mtype term
    (slice content (Z.max 0 (start - W)) (Z.min (len content) (end_ + W))).

(** The instance with [new] appended to its matches. *)
Definition app_matches (self : ContentExtractor) (new : list Match)
  : ContentExtractor :=
  mkExtractor (context_length self) (loose_match_length self)
    (matches self ++ new) (output_file self).

(** A newly built instance with the settings of [self]. *)
Definition fresh (self : ContentExtractor) : ContentExtractor :=
  __init__ None (context_length self) (loose_match_length self).

(** The offsets [ps] are at or after [lo], increasing, and the spans of
    length [step] that start at them do not overlap. *)
Inductive spaced (step : Z) : Z → list Z → Prop :=
| spaced_nil lo : spaced step lo []
| spaced_cons lo p ps :
    lo ≤ p → spaced step (p + step) ps → spaced step lo (p :: ps).

(** Leftmost-first search from [lo]: each offset is the first occurrence
    of [sub] at or after the end of the span before, and none is left after
    the last span. *)
Inductive greedy (sub s : str) (step : Z) : Z → list Z → Prop :=
| greedy_nil lo :
    (∀ p, lo ≤ p → ¬ occurs_at sub s p) → greedy sub s step lo []
| greedy_cons lo p ps :
    lo ≤ p → occurs_at sub s p →
    (∀ q, lo ≤ q < p → ¬ occurs_at sub s q) →
    greedy sub s step (p + step) ps →
    greedy sub s step lo (p :: ps).

(** The offsets at which the loop of [_exact_match] finds the term. *)
Fixpoint exact_positions (n : nat) (search_content search_term : str)
  (step start_pos : Z) : option (list Z) :=
  match n with
  | O => None
  | S n' =>
      let pos := find search_content search_term start_pos in
      if pos =? -1 then Some []
      else (pos ::.) <$>
             exact_positions n' search_content search_term step (pos + step)
  end.

(** The window of [_loose_match] at the offset [i], for the window
    length [L]. *)
Definition window (L : Z) (search_content : str) (i : Z) : str :=
  slice search_content i (Z.min (i + L) (len search_content)).

(** Every keyword occurs in [w]. *)
Definition holds_all (keywords : list str) (w : str) : Prop :=
  ∀ k, k ∈ keywords → substring k w.

(** The context of [m] is the window of the span from [start] to [end_] of
    [content], with the context length [W]: the slice between the clamped
    bounds [max(0, start - W)] and [min(len(content), end_ + W)], which lie
    between 0 and the length; it is the part of [content] between them and
    has at most [2 W + (end_ - start)] characters. *)
Definition windowed (W : Z) (content : str) (start end_ : Z) (m : Match)
  : Prop :=
  let a := Z.max 0 (start - W) in
  let b := Z.min (len content) (end_ + W) in
  context m = slice content a b ∧
  0 ≤ a ∧ b ≤ len content ∧
  context m = take (Z.to_nat (b - a)) (drop (Z.to_nat a) content) ∧
  substring (context m) content ∧
  len (context m) ≤ 2 * W + (end_ - start).

(** The entries [_exact_match] appends for the offsets [ps]. *)
Definition exact_entries (W : Z) (content term : str) (txt_file : string)
  (ps : list Z) : list Match :=
  (λ p, match_at W content p (p + len term) term txt_file "exact_match")
    <$> ps.

(** The offsets of the occurrences of a term being [occs], with spans
    that do not overlap, [_exact_match] returns with one entry more per
    offset. *)
Definition exact_match_counts (lower : str → str) (self : ContentExtractor)
  (content term : str) (txt_file : string) (occs : list Z) : Prop :=
  spaced (len term) 0 occs →
  (∀ p, occurs_at term content p ↔ p ∈ occs) →
  ∃ n r, _exact_match lower n self content content term txt_file true = Some r ∧
    length (matches r) = (length (matches self) + length occs)%nat.

(** [op] only appends to the matches, and what it appends does not depend
    on the matches already there. *)
Definition appends (op : ContentExtractor → option ContentExtractor) : Prop :=
  ∀ self, op self = (λ r, app_matches self (matches r)) <$> op (fresh self).

(** The keywords [_loose_match] looks for. *)
Definition keywords_of (lower : str → str) (term : str)
  (case_sensitive : bool) : list str :=
  if case_sensitive then split plus_sign term
  else lower <$> split plus_sign term.

(** The entry [m] stands for a match with the span from [start] to [end_]
    of the text searched: an exact match for an occurrence of its term, as
    searched, at [start], with a span as long as the term; a loose match
    for an offset [start] whose window holds every keyword, the span being
    that window, for the window length [L]. *)
Definition match_span (lower : str → str) (L : Z) (search_content : str)
  (case_sensitive : bool) (start end_ : Z) (m : Match) : Prop :=
  0 ≤ start ≤ end_ ∧
  ((match_type m = "exact_match"%string ∧
    occurs_at (if case_sensitive then match_term m else lower (match_term m))
      search_content start ∧
    end_ = start + len (match_term m)) ∨
   (match_type m = "loose_match"%string ∧
    start < len search_content ∧
    end_ = Z.min (start + L) (len search_content) ∧
    holds_all (keywords_of lower (match_term m) case_sensitive)
      (window L search_content start))).

(** Lower case of the ASCII letters, other code points unchanged (for
    running the definitions on examples). *)
Definition ascii_lower (s : str) : str :=
  (fun c => if (65 <=? c)%N && (c <=? 90)%N then (c + 32)%N else c) <$> s.

(** The code points of a string literal. *)
Definition py (s : string) : str :=
  Ascii.N_of_ascii <$> String.list_ascii_of_string s.

(** An instance with the context length 3 and the window length 12. *)
Definition small_extractor : ContentExtractor := __init__ None 3 12.

(** A directory with one readable file and one that cannot be read. *)
Definition two_files : list txt :=
  [("a.txt"%string, Some (py "a P-value of A+B and p-value"));
   ("b.txt"%string, None)].

(** A single term and a compound term. *)
Definition run_terms : list str := [py "p-value"; py "a+b"].

(** The instance after one and after two calls of [extract_content] over
    [two_files], not case-sensitive. *)
Definition after_first : ContentExtractor :=
  default small_extractor
    (extract_content ascii_lower 40 small_extractor two_files run_terms false).

Definition after_second : ContentExtractor :=
  default small_extractor
    (extract_content ascii_lower 40 after_first two_files run_terms false).

End Extractor.


(** ** Further notions for the extractor *)

Module ExtractorNotions.
Import Extractor.

(** The text the search runs on: the text itself, or its lower case. *)
Definition view (lower : str → str) (case_sensitive : bool) (s : str) : str :=
  if case_sensitive then s else lower s.

(** [lower] maps a string character by character. *)
Definition charwise (lower : str → str) : Prop :=
  ∃ g : N → N, ∀ s, lower s = g <$> s.

(** The context of an entry holds what was searched for: the term of an
    exact match, every keyword of a loose match (in the view searched). *)
Definition holds_match (lower : str → str) (case_sensitive : bool) (m : Match)
  : Prop :=
  (match_type m = "exact_match"%string ∧
   substring (view lower case_sensitive (match_term m))
     (view lower case_sensitive (context m))) ∨
  (match_type m = "loose_match"%string ∧
   holds_all (keywords_of lower (match_term m) case_sensitive)
     (view lower case_sensitive (context m))).

(** The files of a directory listing that can be read. *)
Definition readable (txt_files : list txt) : list txt :=
  filter (λ f, is_Some f.2) txt_files.

(** A number of iterations that is enough for every text of the listing. *)
Definition enough (lower : str → str) (case_sensitive : bool)
  (txt_files : list txt) : nat :=
  S (S (foldr Nat.max 0%nat
          ((λ f : txt, length (view lower case_sensitive (default [] f.2)))
             <$> txt_files))).

End ExtractorNotions.


(** ** [judge.py] *)

Module Judge.
Import Extractor.

(** A [dict] with string keys, in the order in which the keys were
    inserted (the order in which [items()] yields them). *)
Abbreviation odict V := (list (string * V)).

(** [key in d] *)
Fixpoint od_mem {V : Type} (key : string) (d : odict V) : bool :=
  match d with
  | [] => false
  | (k, _) :: d' => bool_decide (k = key) || od_mem key d'
  end.

(** [d[key].append(v)], for a key that [d] holds (the code inserts the key
    just before when it is missing). *)
Fixpoint od_append {V : Type} (key : string) (v : V) (d : odict (list V))
  : odict (list V) :=
  match d with
  | [] => []
  | (k, l) :: d' =>
      if bool_decide (k = key) then (k, l ++ [v]) :: d'
      else (k, l) :: od_append key v d'
  end.

(** The [for match in matches] loop of [_group_contexts]. *)
Fixpoint group_loop (grouped : odict (list str)) (matches : list Match)
  : odict (list str) :=
  match matches with
  | [] => grouped
  | m :: rest =>
      let grouped :=
        if od_mem (file_name m) grouped then grouped
        else grouped ++ [(file_name m, [])] in
      group_loop (od_append (file_name m) (context m) grouped) rest
  end.

Definition _group_contexts (matches : list Match) : odict (list str) :=
  group_loop [] matches.

(** [str(n)] for a number that is not negative. *)
Definition str_of_nat (n : nat) : str := py (pretty n).

(** The line feed. *)
Definition LF : N := 10%N.

(** The text one iteration of the loop of [_combine_contexts] adds. *)
Definition paragraph (i : nat) (ctx : str) : str :=
  py "Paragraph " ++ str_of_nat i ++ py ":" ++ [LF] ++ ctx ++ [LF; LF].

(** The [for i, ctx in enumerate(contexts, 1)] loop. *)
Fixpoint paragraph_loop (combined : str) (i : nat) (contexts : list str)
  : str :=
  match contexts with
  | [] => combined
  | ctx :: rest => paragraph_loop (combined ++ paragraph i ctx) (S i) rest
  end.

Definition _combine_contexts (contexts : list str) : str :=
  paragraph_loop
    (py "The following are " ++ str_of_nat (length contexts)
     ++ py " excerpted paragraphs from one paper:" ++ [LF; LF])
    1 contexts.

Section WithChecker.

(** The language-model call: the answer to the [i]-th call of a run for a
    combined context, [None] when the call raises. *)
Variable checker : nat → str → option str.

(** The [for file_name, contexts in grouped_contexts.items()] loop of
    [_process_contexts]; [i] counts the calls made. *)
Fixpoint process_loop (i : nat) (items : odict (list str))
  (results : list Analyzer.SignificanceRecord)
  : option (list Analyzer.SignificanceRecord) :=
  match items with
  | [] => Some results
  | (file_name, contexts) :: rest =>
      pred ← checker i (_combine_contexts contexts);
      if bool_decide (pred ∈ [py "true"; py "false"])
      then process_loop (S i) rest
             (results ++
                [Analyzer.mkRecord file_name (len contexts)
                   (bool_decide (pred = py "true"))])
      else process_loop (S i) rest results
  end.

Definition _process_contexts (grouped_contexts : odict (list str))
  : option (list Analyzer.SignificanceRecord) :=
  process_loop 0 grouped_contexts [].

(** [judge_content]: [input_file] is what the input path holds ([None]: no
    such file, the call raises); the result is what is written to the
    output path. *)
Definition judge_content (input_file : option (list Match))
  : option (list Analyzer.SignificanceRecord) :=
  matches ← input_file;
  _process_contexts (_group_contexts matches).

End WithChecker.

(** *** Notions the properties are stated with *)

(** The elements of a list in the order of their first occurrence. *)
Fixpoint nub (l : list string) : list string :=
  match l with
  | [] => []
  | x :: l' => x :: filter (λ y, y ≠ x) (nub l')
  end.

(** The contexts of the matches of one file, in order. *)
Definition contexts_of (f : string) (matches : list Match) : list str :=
  context <$> filter (λ m, file_name m = f) matches.

(** The number of contexts in all groups. *)
Definition group_total (grouped : odict (list str)) : nat :=
  foldr (λ kv acc, length kv.2 + acc)%nat 0%nat grouped.


(** The first line of the text [_combine_contexts] builds. *)
Definition heading (n : nat) : str :=
  py "The following are " ++ str_of_nat n
  ++ py " excerpted paragraphs from one paper:" ++ [LF; LF].


(** A checker that answers ["true"] to the calls with an even number and
    ["null"] to the others, for running the definitions. *)
Definition toy_checker (i : nat) (combined : str) : option str :=
  if Nat.even i then Some (py "true") else Some (py "null").


End Judge.


(** ** [parser.py] *)

Module Parser.
Import Extractor.

(** [sep.join(parts)] *)
Fixpoint join (sep : str) (parts : list str) : str :=
  match parts with
  | [] => []
  | p :: rest =>
      match rest with
      | [] => p
      | _ :: _ => p ++ sep ++ join sep rest
      end
  end.

(** A PDF file of the input directory: its stem (the name without
    [.pdf]) and the texts of its pages, [None] when the document cannot
    be opened or read. *)
Definition pdf : Type := string * option (list str).

(** The name of the text file for a stem. *)
Definition txt_name (stem : string) : string := stem +:+ ".txt".

(** [_parse_single_pdf]; the state is what the output directory holds,
    file name to text. *)
Definition _parse_single_pdf (output_dir : gmap string str) (pdf_file : pdf)
  : gmap string str :=
  let txt_file := txt_name pdf_file.1 in
  match output_dir !! txt_file with
  | Some _ => output_dir
  | None =>
      match pdf_file.2 with
      | Some pages => <[txt_file := join [10%N] pages]> output_dir
      | None => output_dir
      end
  end.

(** The [for pdf_file in pdf_files] loop of [parse_all_pdfs]. *)
Fixpoint parse_all_pdfs (output_dir : gmap string str) (pdf_files : list pdf)
  : gmap string str :=
  match pdf_files with
  | [] => output_dir
  | pdf_file :: rest =>
      parse_all_pdfs (_parse_single_pdf output_dir pdf_file) rest
  end.

(** The text a listing can provide for a file name: that of the first
    PDF with this text name that can be converted. *)
Definition converted (name : string) (pdf_files : list pdf) : option str :=
  head (omap (λ pdf_file : pdf,
                if decide (txt_name pdf_file.1 = name)
                then join [10%N] <$> pdf_file.2 else None) pdf_files).

(** Two PDFs, the second of which cannot be read. *)
Definition two_pdfs : list pdf :=
  [("a"%string, Some [py "page one"; py "page two"]); ("b"%string, None)].

End Parser.

(** ** [getter.py] *)

Module Getter.
Import Py Extractor.

(** [v.get(key, dflt)]; [None] stands for the [AttributeError] of a value
    that is no dict. *)
Definition get (v : json) (key : string) (dflt : json) : option json :=
  match v with
  | JDict d => Some (default dflt (d !! key))
  | _ => None
  end.

(** The items of a [for] loop, [None] when the value cannot be iterated. *)
Definition items (v : json) : option (list json) :=
  match iter v with
  | inr l => Some l
  | inl _ => None
  end.

(** The [for location in oa_locations] loop of [get_paper_by_doi]: the
    link found, if any; the outer [None] stands for an exception. *)
Fixpoint scan_locations (locations : list json) : option (option json) :=
  match locations with
  | [] => Some None
  | location :: rest =>
      u ← get location "url_for_pdf" JNull;
      potential_pdf_url ←
        (if truthy u then Some u else get location "pdf_url" JNull);
      if truthy potential_pdf_url then Some (Some potential_pdf_url)
      else scan_locations rest
  end.

(** The body of [get_paper_by_doi] for the decoded answer: the value
    returned; the outer [None] stands for an exception. *)
Definition select_pdf_url (data : json) : option (option json) :=
  is_oa ← get data "is_oa" JNull;
  if truthy is_oa then
    best_oa_location ← get data "best_oa_location" (JDict ∅);
    u ← get best_oa_location "pdf_url" JNull;
    pdf_url ←
      (if truthy u then Some u else get best_oa_location "url_for_pdf" JNull);
    pdf_url ←
      (if negb (truthy pdf_url) then
         oa_locations ← get data "oa_locations" (JList []);
         locations ← items oa_locations;
         found ← scan_locations locations;
         Some (default pdf_url found)
       else Some pdf_url);
    if truthy pdf_url then Some (Some pdf_url) else Some None
  else Some None.

(** [get_paper_by_doi]: [response] is what the request gives, the status
    code and the decoded body ([None]: the request, or the decoding, raises);
    every exception is caught and gives [None]. *)
Definition get_paper_by_doi (response : option (Z * option json))
  : option json :=
  match response with
  | None => None
  | Some (status_code, body) =>
      if status_code =? 200 then
        match body with
        | None => None
        | Some data => default None (select_pdf_url data)
        end
      else None
  end.

(** The scan of [str.rfind]: the highest index at which [sub] starts in
    [s], the text from index [i] on, or -1. *)
Fixpoint rfind_scan (sub s : str) (i : Z) : Z :=
  match s with
  | [] => if startswith sub [] then i else -1
  | _ :: s' =>
      let r := rfind_scan sub s' (i + 1) in
      if r =? -1 then (if startswith sub s then i else -1) else r
  end.

(** [s.rfind(sub)] *)
Definition rfind (s sub : str) : Z := rfind_scan sub s 0.

(** The single quote. *)
Definition quote : N := 39%N.

(** The link [download_from_scihub] takes from the [onclick] attribute of
    the button. *)
Definition scihub_pdf_url (onclick_content : str) : str :=
  let start := find onclick_content [quote] 0 + 1 in
  let end_ := rfind onclick_content [quote] in
  let pdf_url := slice onclick_content start end_ in
  if negb (startswith (py "http") pdf_url) then py "https:" ++ pdf_url
  else pdf_url.

(** *** Notions the properties are stated with *)

(** The links of the best location, in the order in which they are
    tried. *)
Definition best_links (b : gmap string json) : list json :=
  [default JNull (b !! "pdf_url"); default JNull (b !! "url_for_pdf")].

(** The links of another location, in the order in which they are tried. *)
Definition location_links (l : gmap string json) : list json :=
  [default JNull (l !! "url_for_pdf"); default JNull (l !! "pdf_url")].

(** All links of an answer, in the order in which they are tried. *)
Definition candidates (b : gmap string json) (locs : list (gmap string json))
  : list json :=
  best_links b ++ (locs ≫= location_links).

(** The link with [https:] put in front unless it starts with [http]. *)
Definition with_scheme (url : str) : str :=
  if startswith (py "http") url then url else py "https:" ++ url.

(** An answer whose best location has no link and whose second other
    location has one. *)
Definition sample_answer : gmap string json :=
  <["is_oa" := JBool true]>
  (<["best_oa_location" := JDict {["url" := JStr "u"]}]>
   {["oa_locations" :=
       JList [JDict {["pdf_url" := JStr ""]};
              JDict (<["pdf_url" := JStr "p"]> {["url_for_pdf" := JStr "q"]})]]}).

End Getter.


(** * Properties of the analyzer *)

Section AnalyzerFacts.
Import Py Analyzer.

Implicit Types (rs : list SignificanceRecord) (thr : Z).

Lemma getitem_context_count r :
  getitem (record_json r) "context_count" = ret (JInt (context_count r)).
Proof.
  unfold getitem, record_json.
  rewrite lookup_insert_ne by done. by rewrite lookup_insert_eq.
Qed.

Lemma getitem_is_significant r :
  getitem (record_json r) "is_significant" = ret (JBool (is_significant r)).
Proof.
  unfold getitem, record_json.
  do 2 (rewrite lookup_insert_ne by done). by rewrite lookup_insert_eq.
Qed.

Lemma count_if_cons b r rs :
  count_if b (r :: rs) =
  (if bool_decide (is_significant r = b) then 1 else 0) + count_if b rs.
Proof.
  unfold count_if. rewrite filter_cons.
  case_bool_decide; case_decide; try done; simpl; lia.
Qed.

Lemma count_if_split rs : count_if true rs + count_if false rs = size rs.
Proof.
  induction rs as [|r rs IH]; [done|].
  rewrite !count_if_cons. unfold size in *. simpl length.
  destruct (is_significant r); repeat case_bool_decide; try done; lia.
Qed.

Lemma count_loop_app rs rest thr tc fc :
  count_loop ((record_json <$> rs) ++ rest) thr tc fc =
  count_loop rest thr (tc + count_if true (below thr rs))
    (fc + count_if false (below thr rs)).
Proof.
  revert tc fc. induction rs as [|r rs IH]; intros tc fc.
  - simpl. unfold count_if. simpl. by rewrite !Z.add_0_r.
  - rewrite fmap_cons. cbn [app count_loop].
    rewrite getitem_context_count. cbn [bind ret lt_int].
    unfold below. rewrite filter_cons. fold (below thr rs).
    destruct (Z.ltb_spec (context_count r) thr) as [Hlt|Hge].
    + rewrite decide_True by done.
      rewrite getitem_is_significant. cbn [bind ret truthy].
      rewrite !count_if_cons.
      destruct (is_significant r); rewrite IH; repeat case_bool_decide;
        try done; f_equal; lia.
    + rewrite decide_False by lia. apply IH.
Qed.

Lemma count_loop_records rs thr tc fc :
  count_loop (record_json <$> rs) thr tc fc =
  ret (tc + count_if true (below thr rs), fc + count_if false (below thr rs)).
Proof.
  rewrite <-(app_nil_r (record_json <$> rs)). by rewrite count_loop_app.
Qed.

Lemma _count_results_file d0 items thr :
  _count_results (results_file d0 items) thr =
  let! c := count_loop items thr 0 0 in ret (c.1 + c.2, c.1, c.2).
Proof.
  unfold _count_results, results_file. cbn [is_dict dict_has andb].
  rewrite lookup_insert_eq, bool_decide_true by eauto.
  cbn [getitem]. by rewrite lookup_insert_eq.
Qed.

Lemma _count_results_load rs thr :
  _count_results (load rs) thr =
  ret (count_if true (below thr rs) + count_if false (below thr rs),
       count_if true (below thr rs), count_if false (below thr rs)).
Proof.
  unfold _count_results, load. cbn [is_dict dict_has andb].
  rewrite lookup_insert_eq.
  rewrite bool_decide_true by eauto.
  cbn [getitem]. rewrite lookup_insert_eq. cbn [bind ret iter].
  by rewrite count_loop_records.
Qed.

Lemma analyze_by_threshold_load rs thr :
  analyze_by_threshold (load rs) thr = ret (stat_of rs thr).
Proof.
  unfold analyze_by_threshold. by rewrite _count_results_load.
Qed.

Lemma total_stat_of rs thr : total (stat_of rs thr) = size (below thr rs).
Proof. unfold stat_of. cbn [total]. apply count_if_split. Qed.

Lemma below_all rs thr : cc_bound rs ≤ thr → below thr rs = rs.
Proof.
  unfold cc_bound, below. induction rs as [|r rs IH]; [done|].
  rewrite fmap_cons. cbn [foldr]. intros Hb.
  rewrite filter_cons, decide_True by lia. f_equal. apply IH. lia.
Qed.

Lemma size_below_le rs thr : size (below thr rs) ≤ size rs.
Proof.
  unfold size, below. pose proof (length_filter (λ r, context_count r < thr) rs).
  lia.
Qed.

Lemma size_below_full rs thr :
  size (below thr rs) = size rs ↔ ∀ r, r ∈ rs → context_count r < thr.
Proof.
  unfold size, below. induction rs as [|r rs IH].
  - split; [|done]. intros _ r Hr. by apply not_elem_of_nil in Hr.
  - pose proof (length_filter (λ r, context_count r < thr) rs) as Hle.
    rewrite filter_cons. case_decide as Hr; simpl length.
    + split.
      * intros Hlen r' [->|Hin]%elem_of_cons; [done|].
        apply IH; [lia|done].
      * intros Hall. f_equal. f_equal. apply Nat2Z.inj, IH.
        intros r' Hin. apply Hall. by right.
    + split; [lia|]. intros Hall. exfalso. apply Hr, Hall. by left.
Qed.

(** The total does not decrease when the threshold grows. *)
Lemma total_monotone rs (t1 t2 : Z) :
  t1 ≤ t2 → total (stat_of rs t1) ≤ total (stat_of rs t2).
Proof.
  intros Ht. rewrite !total_stat_of. unfold size, below.
  induction rs as [|r rs IH]; [done|].
  rewrite !filter_cons. repeat case_decide; simpl length; lia.
Qed.

Lemma sweep_load_step n rs thr prev acc :
  sweep (S n) (load rs) thr prev acc =
  if (total (stat_of rs thr) =? prev) && (0 <? total (stat_of rs thr))
  then Some (ret acc)
  else sweep n (load rs) (thr + 1) (total (stat_of rs thr))
         (acc ++ [stat_of rs thr]).
Proof. cbn [sweep]. by rewrite analyze_by_threshold_load. Qed.

Lemma sweep_mono n m data thr prev acc r :
  sweep n data thr prev acc = Some r → (n ≤ m)%nat →
  sweep m data thr prev acc = Some r.
Proof.
  revert m thr prev acc. induction n as [|n IH]; intros m thr prev acc; [done|].
  intros Hn Hm. destruct m as [|m]; [lia|].
  cbn [sweep] in *. destruct (analyze_by_threshold data thr); [done|].
  destruct (_ && _); [done|]. apply IH; [done|lia].
Qed.

Lemma sweep_deterministic n m data thr prev acc r r' :
  sweep n data thr prev acc = Some r → sweep m data thr prev acc = Some r' →
  r = r'.
Proof.
  intros Hn Hm.
  apply (sweep_mono _ (n `max` m)%nat) in Hn; [|lia].
  apply (sweep_mono _ (n `max` m)%nat) in Hm; [|lia]. congruence.
Qed.

Lemma sweep_run rs (k : nat) : rs ≠ [] → ∀ thr prev acc,
  (sweep_measure (cc_bound rs) (size rs) thr prev ≤ k)%nat →
  ∃ n t, thr ≤ t ∧
    sweep n (load rs) thr prev acc =
      Some (ret (acc ++ (stat_of rs <$> seqZ thr (t - thr)))) ∧
    leaves_at rs thr prev t ∧
    ∀ u, thr ≤ u < t → ¬ leaves_at rs thr prev u.
Proof.
  intros Hne.
  assert (0 < size rs) as Hpos.
  { unfold size. destruct rs; [done|]. simpl length. lia. }
  induction k as [|k IH]; intros thr prev acc Hk;
    destruct (decide (total (stat_of rs thr) = prev ∧ 0 < total (stat_of rs thr)))
      as [[Heq Hgt]|Hno].
  1,3: exists 1%nat, thr; split; [lia|]; split; [|split].
  1,4: rewrite sweep_load_step;
       rewrite (proj2 (Z.eqb_eq _ _) Heq), (proj2 (Z.ltb_lt _ _) Hgt);
       cbn [andb]; rewrite Z.sub_diag; simpl; by rewrite app_nil_r.
  1,3: unfold leaves_at; by rewrite Z.eqb_refl.
  1,2: intros u Hu; lia.
  - exfalso. apply Hno. unfold sweep_measure in Hk.
    destruct (Z.eqb_spec prev (size rs)) as [->|]; [|lia].
    rewrite total_stat_of, below_all by lia. done.
  - set (s := stat_of rs thr) in *.
    destruct (IH (thr + 1) (total s) (acc ++ [s])) as (n & t & Ht & Hrun & Hl & Hfirst).
    { unfold sweep_measure in *. subst s.
      destruct (decide (cc_bound rs ≤ thr)) as [Hb|Hb].
      - rewrite total_stat_of, below_all, Z.eqb_refl by done.
        rewrite total_stat_of, below_all in Hno by done.
        destruct (Z.eqb_spec prev (size rs)) as [->|]; [by destruct Hno|].
        lia.
      - destruct (_ =? _), (_ =? _); lia. }
    exists (S n), t. split; [lia|]. split; [|split].
    + rewrite sweep_load_step. fold s.
      replace ((total s =? prev) && (0 <? total s)) with false.
      2:{ symmetry. apply andb_false_iff.
          destruct (Z.eqb_spec (total s) prev), (Z.ltb_spec 0 (total s));
            try tauto. }
      rewrite Hrun. rewrite (seqZ_cons thr (t - thr)) by lia.
      rewrite fmap_cons, <-app_assoc. cbn [app].
      by replace (Z.pred (t - thr)) with (t - (thr + 1)) by lia.
    + unfold leaves_at in *.
      destruct (Z.eqb_spec t thr) as [->|]; [lia|].
      destruct (Z.eqb_spec t (thr + 1)) as [->|]; [|done].
      by replace (thr + 1 - 1) with thr by lia.
    + intros u Hu. destruct (decide (u = thr)) as [->|Hne'].
      * unfold leaves_at. by rewrite Z.eqb_refl.
      * intros Hlu. apply (Hfirst u); [lia|].
        unfold leaves_at in *.
        destruct (Z.eqb_spec u thr) as [->|]; [lia|].
        destruct (Z.eqb_spec u (thr + 1)) as [->|]; [|done].
        by replace (thr + 1 - 1) with thr in Hlu by lia.
Qed.

Lemma leaves_at_stabilizes rs start t :
  start ≤ t → leaves_at rs start 0 t ↔ stabilizes rs start t.
Proof.
  unfold leaves_at, stabilizes. intros Ht.
  destruct (Z.eqb_spec t start) as [->|]; [lia|]. intuition lia.
Qed.

(** The sweep over a non-empty record set: it returns, and what it
    returns is the entries of the thresholds before the stabilizing one. *)
Lemma sweep_result rs start : rs ≠ [] →
  ∃ n t, first_stabilizing rs start t ∧
    analyze_all_thresholds n (load rs) start =
      Some (ret (stat_of rs <$> seqZ start (t - start))).
Proof.
  intros Hne.
  destruct (sweep_run rs _ Hne start 0 [] (le_n _))
    as (n & t & Ht & Hrun & Hl & Hfirst).
  exists n, t. split; [|done].
  apply leaves_at_stabilizes in Hl; [|done]. split; [done|].
  intros u Hu. destruct (decide (t ≤ u)) as [|Hlt]; [done|].
  exfalso. apply (Hfirst u); [unfold stabilizes in Hu; lia|].
  apply leaves_at_stabilizes; [unfold stabilizes in Hu; lia|done].
Qed.

Lemma last_stat_of rs start t :
  start < t → last (stat_of rs <$> seqZ start (t - start)) = Some (stat_of rs (t - 1)).
Proof.
  intros Ht. rewrite fmap_last.
  replace (t - start) with ((t - start - 1) + 1) by lia.
  rewrite seqZ_app by lia. rewrite (seqZ_cons _ 1), (seqZ_nil _ (Z.pred 1)) by lia.
  rewrite last_snoc. simpl. f_equal. f_equal. lia.
Qed.

(** *** Counting *)

(** C8.  For a list of well-formed records and an integer threshold,
    [analyze_by_threshold] returns (it raises nothing) an entry that carries
    the threshold; its total is the number of records whose context count
    is strictly below the threshold, its true count the number of those
    labelled significant, its false count the number of the others, the
    total is their sum, and the percentage is [true_count/total*100] for a
    positive total and 0 for the total 0.  On the empty record set all
    four are 0. *)
Theorem analyze_by_threshold_counts rs thr :
  (∃ s, analyze_by_threshold (load rs) thr = ret s ∧
     threshold s = thr ∧
     total s = Z.of_nat (length (filter (λ r, context_count r < thr) rs)) ∧
     true_count s =
       Z.of_nat (length (filter (λ r, is_significant r = true)
                           (filter (λ r, context_count r < thr) rs))) ∧
     false_count s =
       Z.of_nat (length (filter (λ r, is_significant r = false)
                           (filter (λ r, context_count r < thr) rs))) ∧
     total s = true_count s + false_count s ∧
     percentage s =
       (if 0 <? total s
        then (inject_Z (true_count s) / inject_Z (total s) * inject_Z 100)%Q
        else 0%Q)) ∧
  analyze_by_threshold (load []) thr = ret (mkStat thr 0 0 0 0).
Proof.
  split; [|by rewrite analyze_by_threshold_load].
  exists (stat_of rs thr). split; [apply analyze_by_threshold_load|].
  split; [done|]. split; [apply total_stat_of|]. by repeat split.
Qed.

(** *** Malformed input *)

(** C4, amended.  Nothing is validated when the file is loaded, and there
    is no error of the analyzer's own.  (1) A value that is not an object,
    or an object without [significance_results], is counted as no records:
    the counts are 0.  (2) A record without [context_count], met after
    well-formed records, raises [KeyError].  (3) A record without
    [is_significant] raises [KeyError] when its context count is below the
    threshold, and (4) is passed over, as any record is, when its context
    count is not below the threshold. *)
Theorem malformed_input_handling (data : json) (d0 d : gmap string json)
  (pre : list SignificanceRecord) (post : list json) (thr c : Z) :
  (is_dict data && dict_has "significance_results" data = false →
   _count_results data thr = ret (0, 0, 0)) ∧
  (d !! "context_count" = None →
   _count_results
     (results_file d0 ((record_json <$> pre) ++ JDict d :: post)) thr =
   raise KeyError) ∧
  (d !! "context_count" = Some (JInt c) → c < thr →
   d !! "is_significant" = None →
   _count_results
     (results_file d0 ((record_json <$> pre) ++ JDict d :: post)) thr =
   raise KeyError) ∧
  (d !! "context_count" = Some (JInt c) → thr ≤ c →
   _count_results
     (results_file d0 ((record_json <$> pre) ++ JDict d :: post)) thr =
   _count_results (results_file d0 ((record_json <$> pre) ++ post)) thr).
Proof.
  split; [|split; [|split]].
  - intros Hno. unfold _count_results. by rewrite Hno.
  - intros Hcc. rewrite _count_results_file, count_loop_app.
    cbn [count_loop getitem]. by rewrite Hcc.
  - intros Hcc Hlt Hsig. rewrite _count_results_file, count_loop_app.
    cbn [count_loop getitem]. rewrite Hcc. cbn [bind ret lt_int].
    rewrite (proj2 (Z.ltb_lt _ _) Hlt). by rewrite Hsig.
  - intros Hcc Hge. rewrite !_count_results_file, !count_loop_app.
    cbn [count_loop getitem]. rewrite Hcc. cbn [bind ret lt_int].
    by rewrite (proj2 (Z.ltb_ge _ _) Hge).
Qed.

Lemma malformed_input_handling_witness :
  _count_results (JList []) 5 = ret (0, 0, 0) ∧
  _count_results
    (results_file ∅ ((record_json <$> [record_A]) ++ [JDict nameless])) 5 =
  raise KeyError ∧
  _count_results
    (results_file ∅ ((record_json <$> [record_A]) ++ [JDict unlabelled])) 5 =
  raise KeyError ∧
  _count_results
    (results_file ∅ ((record_json <$> [record_A]) ++ [JDict unlabelled])) 4 =
  _count_results (results_file ∅ ((record_json <$> [record_A]) ++ [])) 4.
Proof.
  destruct (malformed_input_handling (JList []) ∅ nameless [record_A] [] 5 0)
    as (Hdata & Hcc & _).
  destruct (malformed_input_handling JNull ∅ unlabelled [record_A] [] 5 4)
    as (_ & _ & Hsig & _).
  destruct (malformed_input_handling JNull ∅ unlabelled [record_A] [] 4 4)
    as (_ & _ & _ & Hskip).
  split; [apply Hdata; reflexivity|]. split; [apply Hcc; reflexivity|].
  split; [apply Hsig; [reflexivity|lia|reflexivity]|].
  apply Hskip; [reflexivity|lia].
Defined.

(** C4 as stated fails: an object without the [significance_results] key
    is not rejected; the counts come back as 0 and the statistic of the
    threshold is the all-zero one. *)
Lemma missing_key_not_rejected :
  dict_has "significance_results" (JDict ∅) = false ∧
  _count_results (JDict ∅) 2 = ret (0, 0, 0) ∧
  analyze_by_threshold (JDict ∅) 2 = ret (mkStat 2 0 0 0 0) ∧
  ¬ ∃ e, _count_results (JDict ∅) 2 = raise e.
Proof.
  split; [done|]. split; [done|]. split; [done|]. by intros [e He].
Qed.

(** *** The sweep *)

(** C1, amended.  Over a non-empty record set the sweep returns, whatever
    the number of iterations it is given beyond the needed one, the entries
    of the thresholds [start .. t-1], where [t] is the first threshold whose
    total repeats the total of the iteration before and is positive.  The
    loop is left before the entry of [t] is appended: the last entry is the
    one of [t - 1] and the entry of [t] is not in the list.  ([stat_of] is
    what [analyze_by_threshold] returns, see [analyze_by_threshold_load].) *)
Theorem analyze_all_thresholds_stops_before_stabilizing rs start :
  rs ≠ [] →
  ∃ t n,
    first_stabilizing rs start t ∧
    analyze_all_thresholds n (load rs) start =
      Some (ret (stat_of rs <$> seqZ start (t - start))) ∧
    (∀ m res, analyze_all_thresholds m (load rs) start = Some res →
       res = ret (stat_of rs <$> seqZ start (t - start))) ∧
    last (stat_of rs <$> seqZ start (t - start)) = Some (stat_of rs (t - 1)) ∧
    stat_of rs t ∉ (stat_of rs <$> seqZ start (t - start)).
Proof.
  intros Hne. destruct (sweep_result rs start Hne) as (n & t & Hfs & Hrun).
  exists t, n. split; [done|]. split; [done|].
  assert (start < t) as Hlt by (destruct Hfs as [[? _] _]; done).
  split; [|split].
  - intros m res Hm. symmetry.
    exact (sweep_deterministic _ _ _ _ _ _ _ _ Hrun Hm).
  - by apply last_stat_of.
  - intros (u & Heq & Hu)%list_elem_of_fmap.
    apply (f_equal threshold) in Heq. cbn [stat_of threshold] in Heq.
    apply elem_of_seqZ in Hu. lia.
Qed.

Lemma analyze_all_thresholds_stops_before_stabilizing_witness :
  [record_A] ≠ [] ∧
  ∃ t n,
    first_stabilizing [record_A] 2 t ∧
    analyze_all_thresholds n (load [record_A]) 2 =
      Some (ret (stat_of [record_A] <$> seqZ 2 (t - 2))) ∧
    (∀ m res, analyze_all_thresholds m (load [record_A]) 2 = Some res →
       res = ret (stat_of [record_A] <$> seqZ 2 (t - 2))) ∧
    last (stat_of [record_A] <$> seqZ 2 (t - 2)) =
      Some (stat_of [record_A] (t - 1)) ∧
    stat_of [record_A] t ∉ (stat_of [record_A] <$> seqZ 2 (t - 2)).
Proof.
  split; [done|].
  apply (analyze_all_thresholds_stops_before_stabilizing [record_A] 2). done.
Defined.

(** C1 as stated fails: for the single record A (context count 1) and the
    start threshold 2 the totals are 1 at threshold 2 and 1 again at
    threshold 3, the loop is left there, and the list returned is the one
    entry of threshold 2, not ended by the entry of threshold 3. *)
Lemma stabilizing_entry_not_returned :
  analyze_all_thresholds 2 (load [record_A]) 2 =
    Some (ret [mkStat 2 1 1 0 100]) ∧
  ¬ returns_stabilizing_entry [record_A] 2.
Proof.
  split; [by vm_compute|].
  intros H. destruct (H 2%nat [mkStat 2 1 1 0 100]) as (t & [[Hlt _] _] & Hlast).
  { by vm_compute. }
  simpl in Hlast. injection Hlast as Hthr _. lia.
Qed.

(** C2, amended.  Over a non-empty record set the sweep returns a list with
    a last entry; the total of that entry is positive and at most the number
    of records, and it is the number of records exactly when every record
    has a context count below the threshold of that entry. *)
Theorem analyze_all_thresholds_terminates rs start :
  rs ≠ [] →
  ∃ n res s,
    analyze_all_thresholds n (load rs) start = Some (ret res) ∧
    last res = Some s ∧
    0 < total s ≤ size rs ∧
    (total s = size rs ↔ ∀ r, r ∈ rs → context_count r < threshold s).
Proof.
  intros Hne. destruct (sweep_result rs start Hne) as (n & t & Hfs & Hrun).
  destruct Hfs as [(Hlt & Heq & Hpos) _].
  exists n, (stat_of rs <$> seqZ start (t - start)), (stat_of rs (t - 1)).
  split; [done|]. split; [by apply last_stat_of|].
  rewrite <-Heq. split.
  - split; [done|]. rewrite total_stat_of. apply size_below_le.
  - rewrite Heq, total_stat_of. cbn [stat_of threshold].
    apply size_below_full.
Qed.

Lemma analyze_all_thresholds_terminates_witness :
  [record_A; record_B] ≠ [] ∧
  ∃ n res s,
    analyze_all_thresholds n (load [record_A; record_B]) 2 = Some (ret res) ∧
    last res = Some s ∧
    0 < total s ≤ size [record_A; record_B] ∧
    (total s = size [record_A; record_B] ↔
     ∀ r, r ∈ [record_A; record_B] → context_count r < threshold s).
Proof.
  split; [done|].
  apply (analyze_all_thresholds_terminates [record_A; record_B] 2). done.
Defined.

(** C2 as stated fails: for the records A (context count 1) and B (context
    count 3), both non-negative, and the start threshold 2, the sweep is
    left at threshold 3, where the total is 1 for the second time; the last
    entry has total 1, the number of records is 2. *)
Lemma final_total_misses_records :
  [record_A; record_B] ≠ [] ∧
  Forall (λ r, 0 ≤ context_count r) [record_A; record_B] ∧
  analyze_all_thresholds 2 (load [record_A; record_B]) 2 =
    Some (ret [mkStat 2 1 1 0 100]) ∧
  ¬ final_total_is_size [record_A; record_B] 2.
Proof.
  split; [done|]. split; [by repeat constructor|].
  assert (analyze_all_thresholds 2 (load [record_A; record_B]) 2 =
            Some (ret [mkStat 2 1 1 0 100])) as Hrun by (by vm_compute).
  split; [done|].
  intros (n & res & s & Hn & Hlast & Htot).
  pose proof (sweep_deterministic _ _ _ _ _ _ _ _ Hrun Hn) as Heq.
  injection Heq as <-. simpl in Hlast. injection Hlast as <-.
  by vm_compute in Htot.
Qed.

Lemma sweep_zero data :
  (∀ thr, ∃ s, analyze_by_threshold data thr = ret s ∧ total s = 0) →
  ∀ n thr acc, sweep n data thr 0 acc = None.
Proof.
  intros Hzero n. induction n as [|n IH]; intros thr acc; [done|].
  cbn [sweep]. destruct (Hzero thr) as (s & -> & Hs).
  unfold ret. rewrite Hs. cbn. apply IH.
Qed.

(** C3: the code has no cap and raises nothing.  For the empty record set
    (and likewise for a file without the [significance_results] key) the
    loop is not left within any number of iterations, from any start
    threshold: every total is 0, and the loop is only left on a positive
    total. *)
Theorem analyze_all_thresholds_empty_never_returns (n : nat) (start : Z) :
  analyze_all_thresholds n (load []) start = None ∧
  analyze_all_thresholds n (JDict ∅) start = None.
Proof.
  split; apply sweep_zero; intros thr.
  - exists (stat_of [] thr). by rewrite analyze_by_threshold_load.
  - by exists (mkStat thr 0 0 0 0).
Qed.

(** *** Summary statistics *)

Lemma fold_left_Qplus (xs : list Q) (a : Q) :
  (fold_left Qplus xs a == a + Qsum xs)%Q.
Proof.
  revert a. induction xs as [|x xs IH]; intros a; cbn [fold_left Qsum foldr].
  - by rewrite Qplus_0_r.
  - rewrite IH. fold (Qsum xs). by rewrite Qplus_assoc.
Qed.

Lemma py_sum_Qsum (xs : list Q) : (py_sum xs == Qsum xs)%Q.
Proof. unfold py_sum. rewrite fold_left_Qplus. apply Qplus_0_l. Qed.

Lemma Qsum_fmap_ext (f g : Q → Q) (xs : list Q) :
  (∀ x, f x == g x)%Q → (Qsum (f <$> xs) == Qsum (g <$> xs))%Q.
Proof.
  intros Hfg. induction xs as [|x xs IH]; [done|].
  rewrite !fmap_cons. cbn [Qsum foldr]. fold (Qsum (f <$> xs)) (Qsum (g <$> xs)).
  by rewrite IH, Hfg.
Qed.

(** C9.  [calculate_statistics] returns nothing exactly for the empty
    list; otherwise it returns the arithmetic mean of the percentages and
    their population variance: the sum of the squared deviations from that
    mean, divided by the number of entries. *)
Theorem calculate_statistics_population (results : list ThresholdStat) :
  (calculate_statistics results = None ↔ results = []) ∧
  (results ≠ [] →
   ∃ s, calculate_statistics results = Some s ∧
     (average_percentage s == mean (percentage <$> results))%Q ∧
     (variance s == population_variance (percentage <$> results))%Q ∧
     (variance s * inject_Z (Z.of_nat (length results)) ==
      squared_deviations (percentage <$> results))%Q).
Proof.
  split.
  - destruct results; [done|]. split; discriminate.
  - intros Hne. destruct results as [|r results]; [done|].
    eexists. split; [reflexivity|]. cbn [average_percentage variance].
    set (xs := percentage <$> r :: results).
    set (n := inject_Z (Z.of_nat (length xs))).
    assert (py_sum xs / n == mean xs)%Q as Havg.
    { unfold mean. fold n. by rewrite py_sum_Qsum. }
    assert (py_sum ((λ x, (x - py_sum xs / n) ^ 2)%Q <$> xs) / n
            == population_variance xs)%Q as Hvar.
    { unfold population_variance, squared_deviations. fold n.
      rewrite py_sum_Qsum.
      rewrite (Qsum_fmap_ext _ (λ x, (x - mean xs) ^ 2)%Q); [done|].
      intros x. by rewrite Havg. }
    split; [done|]. split; [done|].
    rewrite Hvar. unfold population_variance. fold n.
    replace (length (r :: results)) with (length xs)
      by (unfold xs; by rewrite length_fmap).
    fold n. rewrite Qmult_comm. apply Qmult_div_r.
    unfold n, xs. rewrite fmap_cons. cbn [length]. intros H.
    apply Qeq_alt in H. by vm_compute in H.
Qed.

Lemma calculate_statistics_population_witness :
  three_stats ≠ [] ∧
  ∃ s, calculate_statistics three_stats = Some s ∧
    (average_percentage s == mean (percentage <$> three_stats))%Q ∧
    (variance s == population_variance (percentage <$> three_stats))%Q ∧
    (variance s * inject_Z (Z.of_nat (length three_stats)) ==
     squared_deviations (percentage <$> three_stats))%Q.
Proof.
  split; [done|].
  apply (proj2 (calculate_statistics_population three_stats)). done.
Defined.

(** The percentages 50, 50 and 100 have the mean 200/3 and the population
    variance 5000/9, which is not the sample variance 2500/3. *)
Lemma calculate_statistics_three :
  ∃ s, calculate_statistics three_stats = Some s ∧
    (average_percentage s == 200 # 3)%Q ∧
    (variance s == 5000 # 9)%Q ∧
    ¬ (variance s == sample_variance (percentage <$> three_stats))%Q.
Proof. eexists. split; [reflexivity|]. by vm_compute. Qed.

End AnalyzerFacts.

(** * Properties of the extractor *)

Section StringFacts.
Import Extractor.

Implicit Types (s sub k w : str) (p q : Z).

Lemma startswith_prefix sub s :
  startswith sub s = true ↔ ∃ post, s = sub ++ post.
Proof.
  revert s. induction sub as [|c sub IH]; intros s.
  - simpl. split; [by exists s|done].
  - destruct s as [|d s]; simpl.
    + split; [done|]. by intros [post ?].
    + rewrite andb_true_iff, bool_decide_eq_true, IH. split.
      * intros [-> [post ->]]. by exists post.
      * intros [post [= -> ->]]. split; [done|]. by exists post.
Qed.

Lemma contains_substring k w : contains k w = true ↔ substring k w.
Proof.
  unfold substring. induction w as [|d w IH]; cbn [contains].
  - rewrite orb_false_r, startswith_prefix. split.
    + intros [post ->]. by exists [], post.
    + intros (pre & post & H). symmetry in H.
      apply app_eq_nil in H as [-> [-> ->]%app_eq_nil]. by exists [].
  - rewrite orb_true_iff, startswith_prefix, IH. split.
    + intros [[post ->]|(pre & post & ->)].
      * by exists [], post.
      * by exists (d :: pre), post.
    + intros (pre & post & H). destruct pre as [|d' pre].
      * left. by exists post.
      * right. injection H as -> ->. by exists pre, post.
Qed.

Lemma len_nonneg {A} (l : list A) : 0 ≤ len l.
Proof. unfold len. lia. Qed.

Lemma len_app {A} (l1 l2 : list A) : len (l1 ++ l2) = len l1 + len l2.
Proof. unfold len. rewrite length_app. lia. Qed.

Lemma occurs_at_bounds sub s p :
  occurs_at sub s p → 0 ≤ p ∧ p + len sub ≤ len s.
Proof.
  intros (pre & post & -> & <-). rewrite !len_app.
  pose proof (len_nonneg pre). pose proof (len_nonneg post). lia.
Qed.

Lemma occurs_at_startswith sub s p :
  occurs_at sub s p ↔
  0 ≤ p ≤ len s ∧ startswith sub (drop (Z.to_nat p) s) = true.
Proof.
  rewrite startswith_prefix. split.
  - intros Hocc. pose proof (occurs_at_bounds _ _ _ Hocc) as Hb.
    pose proof (len_nonneg sub).
    destruct Hocc as (pre & post & -> & <-). split; [lia|].
    exists post. unfold len. rewrite Nat2Z.id. by rewrite drop_app_length.
  - intros [Hp [post Hpost]]. exists (take (Z.to_nat p) s), post. split.
    + by rewrite <-Hpost, take_drop.
    + unfold len in *. rewrite length_take. lia.
Qed.

Lemma find_scan_spec sub s i :
  (find_scan sub s i = -1 ∧
   ∀ j : nat, startswith sub (drop j s) = false) ∨
  (∃ j : nat, find_scan sub s i = i + Z.of_nat j ∧ (j ≤ length s)%nat ∧
     startswith sub (drop j s) = true ∧
     ∀ j' : nat, (j' < j)%nat → startswith sub (drop j' s) = false).
Proof.
  revert i. induction s as [|d s IH]; intros i; cbn [find_scan].
  - destruct (startswith sub []) eqn:Hs.
    + right. exists 0%nat. repeat split; [lia|simpl; lia|done|lia].
    + left. split; [done|]. intros j. by rewrite drop_nil.
  - destruct (startswith sub (d :: s)) eqn:Hs.
    + right. exists 0%nat. repeat split; [lia|simpl; lia|done|lia].
    + destruct (IH (i + 1)) as [[Hr Hnone]|(j & Hr & Hj & Hat & Hbefore)].
      * left. split; [done|]. intros [|j]; [done|]. apply Hnone.
      * right. exists (S j). repeat split; [lia|simpl; lia|done|].
        intros [|j'] Hj'; [done|]. apply Hbefore. lia.
Qed.

(** [find] from a non-negative start: -1 when [sub] does not occur at or
    after [start], the first such offset otherwise. *)
Lemma find_spec s sub start :
  0 ≤ start →
  (find s sub start = -1 ∧ ∀ p, start ≤ p → ¬ occurs_at sub s p) ∨
  (start ≤ find s sub start ∧ occurs_at sub s (find s sub start) ∧
   ∀ q, start ≤ q < find s sub start → ¬ occurs_at sub s q).
Proof.
  intros Hstart. unfold find.
  rewrite (proj2 (Z.ltb_ge start 0)) by done. fold (len s).
  destruct (Z.ltb_spec (len s) start) as [Hout|Hin].
  - left. split; [done|]. intros p Hp Hocc.
    apply occurs_at_bounds in Hocc. pose proof (len_nonneg sub). lia.
  - destruct (find_scan_spec sub (drop (Z.to_nat start) s) start)
      as [[Hr Hnone]|(j & Hr & Hj & Hat & Hbefore)].
    + left. split; [done|]. intros p Hp [Hb Hocc]%occurs_at_startswith.
      specialize (Hnone (Z.to_nat (p - start))). rewrite drop_drop in Hnone.
      replace (Z.to_nat start + Z.to_nat (p - start))%nat with (Z.to_nat p)
        in Hnone by lia. congruence.
    + right. rewrite Hr. rewrite length_drop in Hj. unfold len in Hin.
      split; [lia|]. split.
      * apply occurs_at_startswith. unfold len. split; [lia|].
        rewrite drop_drop in Hat.
        by replace (Z.to_nat (start + Z.of_nat j)) with (Z.to_nat start + j)%nat
          by lia.
      * intros q Hq [Hb Hocc]%occurs_at_startswith.
        specialize (Hbefore (Z.to_nat (q - start))). rewrite drop_drop in Hbefore.
        replace (Z.to_nat start + Z.to_nat (q - start))%nat with (Z.to_nat q)
          in Hbefore by lia.
        rewrite Hbefore in Hocc by lia. done.
Qed.

(** A slice with bounds inside the text is the text from [a] up to [b]. *)
Lemma slice_take_drop {A} (s : list A) (a b : Z) :
  0 ≤ a → 0 ≤ b ≤ len s →
  slice s a b = take (Z.to_nat (b - a)) (drop (Z.to_nat a) s).
Proof.
  intros Ha Hb. unfold slice, clip_index. fold (len s).
  rewrite (proj2 (Z.ltb_ge a 0)), (proj2 (Z.ltb_ge b 0)) by lia.
  rewrite (Z.min_l b) by lia.
  destruct (decide (a ≤ len s)) as [Hle|Hgt].
  - by rewrite Z.min_l by lia.
  - rewrite Z.min_r by lia. unfold len in *.
    rewrite !drop_ge by lia. by rewrite !take_nil.
Qed.

Lemma slice_substring s (a b : Z) : substring (slice s a b) s.
Proof.
  unfold slice. set (b' := clip_index _ b). set (a' := clip_index _ a).
  exists (take (Z.to_nat a') s), (drop (Z.to_nat (b' - a')) (drop (Z.to_nat a') s)).
  by rewrite !take_drop.
Qed.

Lemma slice_len {A} (s : list A) (a b : Z) :
  0 ≤ a → 0 ≤ b ≤ len s → len (slice s a b) = Z.max 0 (b - Z.min a (len s)) .
Proof.
  intros Ha Hb. rewrite slice_take_drop by done. unfold len in *.
  rewrite length_take, length_drop. lia.
Qed.

End StringFacts.

Section ExtractorLoops.
Import Extractor.

Implicit Types (self : ContentExtractor) (content search_content term : str).
Implicit Types (txt_file mtype : string) (new : list Match).

Lemma _add_match_app self content start end_ term txt_file mtype :
  _add_match self content start end_ term txt_file mtype =
  app_matches self
    [match_at (context_length self) content start end_ term txt_file mtype].
Proof. reflexivity. Qed.

Lemma app_matches_nil self : app_matches self [] = self.
Proof. destruct self. unfold app_matches. simpl. by rewrite app_nil_r. Qed.

Lemma app_matches_app self new1 new2 :
  app_matches (app_matches self new1) new2 = app_matches self (new1 ++ new2).
Proof. unfold app_matches. simpl. by rewrite app_assoc. Qed.

Lemma fresh_app_matches self new : fresh (app_matches self new) = fresh self.
Proof. reflexivity. Qed.

Lemma match_at_windowed W content start end_ term txt_file mtype :
  0 ≤ W → 0 ≤ start ≤ end_ →
  windowed W content start end_
    (match_at W content start end_ term txt_file mtype).
Proof.
  intros HW Hspan. unfold windowed. cbn [match_at context].
  pose proof (len_nonneg content).
  split; [done|]. split; [lia|]. split; [lia|].
  split; [apply slice_take_drop; lia|]. split; [apply slice_substring|].
  rewrite slice_len by lia. lia.
Qed.

(** *** Loose matching *)

Lemma forallb_contains keywords w :
  forallb (λ k, contains k w) keywords = true ↔ holds_all keywords w.
Proof.
  unfold holds_all. induction keywords as [|k ks IH]; cbn [forallb].
  - split; [|done]. intros _ k Hk. by apply not_elem_of_nil in Hk.
  - rewrite andb_true_iff, contains_substring, IH. split.
    + intros [Hk Hks] k' [->|Hin]%elem_of_cons; [done|by apply Hks].
    + intros Hall. split; [apply Hall; by left|].
      intros k' Hin. apply Hall. by right.
Qed.

Lemma loose_scan_first self content search_content keywords term txt_file
  (lo : Z) (cnt : nat) :
  let L := loose_match_length self in
  let run := loose_scan self content search_content keywords term txt_file
               (seqZ lo (Z.of_nat cnt)) in
  (run = self ∧
   ∀ i, lo ≤ i < lo + Z.of_nat cnt →
     ¬ holds_all keywords (window L search_content i)) ∨
  (∃ i, lo ≤ i < lo + Z.of_nat cnt ∧
     holds_all keywords (window L search_content i) ∧
     (∀ j, lo ≤ j < i → ¬ holds_all keywords (window L search_content j)) ∧
     run = _add_match self content i (Z.min (i + L) (len search_content))
             term txt_file "loose_match").
Proof.
  intros L. revert lo. induction cnt as [|cnt IH]; intros lo run.
  - left. split; [done|]. intros i Hi. lia.
  - subst run. rewrite seqZ_cons by lia. cbn [loose_scan]. fold L.
    fold (window L search_content lo).
    destruct (forallb _ keywords) eqn:Hok.
    + right. exists lo. split; [lia|]. split; [by apply forallb_contains|].
      split; [|done]. intros j Hj. lia.
    + assert (¬ holds_all keywords (window L search_content lo)) as Hlo.
      { rewrite <-forallb_contains. congruence. }
      replace (Z.pred (Z.of_nat (S cnt))) with (Z.of_nat cnt) by lia.
      destruct (IH (Z.succ lo)) as [[Hrun Hnone]|(i & Hi & Hall & Hfirst & Hrun)].
      * left. split; [done|]. intros i Hi.
        destruct (decide (i = lo)) as [->|]; [done|]. apply Hnone. lia.
      * right. exists i. split; [lia|]. split; [done|]. split; [|done].
        intros j Hj. destruct (decide (j = lo)) as [->|]; [done|].
        apply Hfirst. lia.
Qed.

(** *** Exact matching *)

Lemma exact_loop_positions n self content search_content search_term term
  txt_file start_pos :
  exact_loop n self content search_content search_term term txt_file start_pos
  = (λ ps, app_matches self
             (exact_entries (context_length self) content term txt_file ps))
      <$> exact_positions n search_content search_term (len term) start_pos.
Proof.
  revert self start_pos. induction n as [|n IH]; intros self start_pos; [done|].
  cbn [exact_loop exact_positions].
  destruct (_ =? -1).
  - simpl. by rewrite app_matches_nil.
  - rewrite IH, _add_match_app. cbn [app_matches context_length].
    destruct (exact_positions n _ _ _ _) as [ps|]; [|done].
    simpl. f_equal. unfold app_matches. simpl. by rewrite <-app_assoc.
Qed.

Lemma exact_positions_mono n m search_content search_term step start_pos ps :
  exact_positions n search_content search_term step start_pos = Some ps →
  (n ≤ m)%nat →
  exact_positions m search_content search_term step start_pos = Some ps.
Proof.
  revert m start_pos ps. induction n as [|n IH]; intros m start_pos ps; [done|].
  intros Hn Hm. destruct m as [|m]; [lia|]. cbn [exact_positions] in *.
  destruct (_ =? -1); [done|].
  destruct (exact_positions n _ _ _ _) as [ps'|] eqn:Hps'; [|done].
  by rewrite (IH m _ ps') by (done || lia).
Qed.

Lemma exact_positions_greedy n search_content search_term step start_pos ps :
  0 ≤ step → 0 ≤ start_pos →
  exact_positions n search_content search_term step start_pos = Some ps →
  greedy search_term search_content step start_pos ps.
Proof.
  intros Hstep. revert start_pos ps.
  induction n as [|n IH]; intros start_pos ps Hstart; [done|].
  cbn [exact_positions].
  destruct (find_spec search_content search_term start_pos Hstart)
    as [[-> Hnone]|(Hle & Hocc & Hfirst)].
  - simpl. intros [= <-]. by constructor.
  - destruct (Z.eqb_spec (find search_content search_term start_pos) (-1));
      [lia|].
    destruct (exact_positions n _ _ _ _) as [ps'|] eqn:Hps'; [|done].
    simpl. intros [= <-]. constructor; [done..|]. apply IH; [lia|done].
Qed.

Lemma exact_positions_returns n search_content search_term step start_pos :
  0 < step → 0 ≤ start_pos →
  (Z.to_nat (len search_content + 1 - start_pos) < n)%nat →
  ∃ ps, exact_positions n search_content search_term step start_pos = Some ps.
Proof.
  intros Hstep. revert start_pos.
  induction n as [|n IH]; intros start_pos Hstart Hn; [lia|].
  cbn [exact_positions].
  destruct (find_spec search_content search_term start_pos Hstart)
    as [[-> Hnone]|(Hle & Hocc & Hfirst)].
  - by exists [].
  - destruct (Z.eqb_spec (find search_content search_term start_pos) (-1));
      [lia|].
    apply occurs_at_bounds in Hocc. pose proof (len_nonneg search_term).
    destruct (IH (find search_content search_term start_pos + step))
      as [ps ->]; [lia|lia|]. by eexists.
Qed.

Lemma spaced_weaken step lo lo' ps :
  lo ≤ lo' → spaced step lo' ps → spaced step lo ps.
Proof. intros Hlo Hsp. destruct Hsp; constructor; [lia|done]. Qed.

Lemma spaced_lower_bound step lo ps p :
  0 ≤ step → spaced step lo ps → p ∈ ps → lo ≤ p.
Proof.
  intros Hstep Hsp. induction Hsp as [|lo q ps Hq Hsp IH]; intros Hin.
  - by apply not_elem_of_nil in Hin.
  - apply elem_of_cons in Hin as [->|Hin]; [done|]. specialize (IH Hin). lia.
Qed.

Lemma greedy_spaced sub s step lo ps :
  greedy sub s step lo ps → spaced step lo ps.
Proof. induction 1; by constructor. Qed.

Lemma greedy_occurs sub s step lo ps :
  greedy sub s step lo ps → Forall (occurs_at sub s) ps.
Proof. induction 1; by constructor. Qed.

(** When the occurrences at or after [lo] are the offsets [occs] and their
    spans do not overlap, leftmost-first search finds all of them. *)
Lemma greedy_all sub s step lo ps occs :
  0 < step → greedy sub s step lo ps → spaced step lo occs →
  (∀ p, lo ≤ p → (occurs_at sub s p ↔ p ∈ occs)) →
  ps = occs.
Proof.
  intros Hstep Hg. revert occs.
  induction Hg as [lo Hnone|lo p ps Hlo Hocc Hfirst Hg IH]; intros occs Hsp Hiff.
  - destruct Hsp as [|lo q occs Hq _]; [done|].
    exfalso. apply (Hnone q Hq), Hiff; [done|by left].
  - destruct Hsp as [|lo q occs Hq Hsp].
    { apply Hiff in Hocc; [|done]. by apply not_elem_of_nil in Hocc. }
    assert (p = q) as <-.
    { assert (p ≤ q) as Hpq.
      { destruct (decide (p ≤ q)); [done|]. exfalso.
        apply (Hfirst q); [lia|]. apply Hiff; [done|by left]. }
      apply Hiff in Hocc; [|done].
      apply elem_of_cons in Hocc as [->|Hin]; [done|].
      pose proof (spaced_lower_bound _ _ _ _ (Z.lt_le_incl _ _ Hstep) Hsp Hin).
      lia. }
    f_equal. apply IH; [done|]. intros r Hr. rewrite Hiff by lia.
    rewrite elem_of_cons. split; [intros [->|]; [lia|done]|by right].
Qed.

(** No family of occurrences with non-overlapping spans is larger than
    the one leftmost-first search finds. *)
Lemma greedy_max sub s step lo ps qs :
  0 ≤ step → greedy sub s step lo ps → spaced step lo qs →
  Forall (occurs_at sub s) qs → (length qs ≤ length ps)%nat.
Proof.
  intros Hstep Hg. revert qs.
  induction Hg as [lo Hnone|lo p ps Hlo Hocc Hfirst Hg IH]; intros qs Hsp Hqs.
  - destruct Hsp as [|lo q qs Hq _]; [done|].
    exfalso. apply (Hnone q Hq). by inversion Hqs.
  - destruct Hsp as [|lo q qs Hq Hsp]; [simpl; lia|].
    inversion Hqs as [|? ? Hoq Hqs']; subst. simpl.
    assert (p ≤ q) as Hpq.
    { destruct (decide (p ≤ q)); [done|]. exfalso. apply (Hfirst q); [lia|done]. }
    apply le_n_S, IH; [|done]. eapply spaced_weaken; [|done]. lia.
Qed.

Lemma exact_loop_empty_term n self content search_content txt_file :
  exact_loop n self content search_content [] [] txt_file 0 = None.
Proof.
  revert self. induction n as [|n IH]; intros self; [done|].
  cbn [exact_loop]. unfold find. cbn [Z.ltb Z.compare].
  rewrite (proj2 (Z.ltb_ge _ 0)) by (unfold len; lia).
  change (Z.to_nat 0) with 0%nat. rewrite drop_0.
  destruct search_content; cbn [find_scan startswith Z.eqb len length Z.add];
    apply IH.
Qed.

Lemma occurs_at_empty s p : occurs_at [] s p ↔ 0 ≤ p ≤ len s.
Proof.
  rewrite occurs_at_startswith. cbn [startswith]. tauto.
Qed.

(** *** Accumulation of the matches *)

Lemma loose_scan_app self content search_content keywords term txt_file
  (offsets : list Z) :
  loose_scan self content search_content keywords term txt_file offsets =
  app_matches self
    (matches (loose_scan (fresh self) content search_content keywords term
                txt_file offsets)).
Proof.
  induction offsets as [|i rest IH]; cbn [loose_scan].
  - by rewrite app_matches_nil.
  - change (loose_match_length (fresh self)) with (loose_match_length self).
    destruct (forallb _ keywords); [done|apply IH].
Qed.

Lemma appends_Some : appends Some.
Proof. intros self. simpl. by rewrite app_matches_nil. Qed.

Lemma appends_bind f g :
  appends f → appends g → appends (λ self, f self ≫= g).
Proof.
  intros Hf Hg self. rewrite (Hf self).
  pose proof (Hf (fresh self)) as Hr1.
  change (fresh (fresh self)) with (fresh self) in Hr1.
  destruct (f (fresh self)) as [r1|]; [|done].
  injection Hr1 as Hr1. cbn [fmap option_fmap option_map mbind option_bind].
  rewrite (Hg (app_matches self (matches r1))), (Hg r1), fresh_app_matches.
  rewrite Hr1 at 1. rewrite fresh_app_matches.
  change (fresh (fresh self)) with (fresh self).
  destruct (g (fresh self)) as [r2|]; [|done]. simpl. f_equal.
  by rewrite app_matches_app.
Qed.

Lemma matches_save_results self : matches (_save_results self) = matches self.
Proof. destruct self as [W L [|m ms] out]; reflexivity. Qed.

End ExtractorLoops.

Section ExtractorFacts.
Import Extractor.

Variable lower : str → str.

Implicit Types (self : ContentExtractor) (content search_content term : str).
Implicit Types (txt_file mtype : string) (new : list Match).


(** C6 on non-empty terms.  For every text and every non-empty single
    term, the loop of [_exact_match] is left after finitely many
    iterations, and
    whatever number of iterations it is given, what it returns is the
    instance with one ["exact_match"] entry appended per offset of [ps],
    in that order, each for the span from the offset to the offset plus the
    length of the term.  The offsets are those of a leftmost-first search
    (in the text searched, for the term searched) that resumes at the end of
    the span before; the spans are in increasing order and do not overlap.
    When the occurrences of the term are the offsets [occs] and their spans
    do not overlap, [ps] is [occs]: one entry per occurrence, [k] entries for
    [k] occurrences.  No family of occurrences with non-overlapping spans
    has more members than [ps]. *)
Theorem exact_match_leftmost_first self content search_content term txt_file
  (case_sensitive : bool) :
  term ≠ [] →
  let search_term := if case_sensitive then term else lower term in
  let W := context_length self in
  ∃ n ps,
    _exact_match lower n self content search_content term txt_file
      case_sensitive =
      Some (app_matches self (exact_entries W content term txt_file ps)) ∧
    (∀ m r, _exact_match lower m self content search_content term txt_file
              case_sensitive = Some r →
       r = app_matches self (exact_entries W content term txt_file ps)) ∧
    length (exact_entries W content term txt_file ps) = length ps ∧
    greedy search_term search_content (len term) 0 ps ∧
    spaced (len term) 0 ps ∧
    Forall (occurs_at search_term search_content) ps ∧
    (∀ occs, spaced (len term) 0 occs →
       (∀ p, occurs_at search_term search_content p ↔ p ∈ occs) →
       ps = occs) ∧
    (∀ qs, spaced (len term) 0 qs →
       Forall (occurs_at search_term search_content) qs →
       (length qs ≤ length ps)%nat).
Proof.
  intros Hterm search_term W.
  assert (0 < len term) as Hstep.
  { unfold len. destruct term; [done|]. simpl length. lia. }
  set (n := S (Z.to_nat (len search_content + 1 - 0))).
  destruct (exact_positions_returns n search_content search_term (len term) 0)
    as [ps Hps]; [done|done|lia|].
  pose proof (exact_positions_greedy _ _ _ _ _ _
                (Z.lt_le_incl _ _ Hstep) (Z.le_refl 0) Hps) as Hg.
  exists n, ps. split; [|split].
  - unfold _exact_match. fold search_term.
    by rewrite exact_loop_positions, Hps.
  - intros m r. unfold _exact_match. fold search_term.
    rewrite exact_loop_positions.
    destruct (exact_positions m _ _ _ _) as [ps'|] eqn:Hps'; [|done].
    intros [= <-].
    apply (exact_positions_mono _ (n `max` m)%nat) in Hps; [|lia].
    apply (exact_positions_mono _ (n `max` m)%nat) in Hps'; [|lia].
    assert (ps' = ps) as -> by congruence. done.
  - split; [unfold exact_entries; by rewrite length_fmap|].
    split; [done|]. split; [by eapply greedy_spaced|].
    split; [by eapply greedy_occurs|]. split.
    + intros occs Hsp Hiff. eapply greedy_all; [done..|].
      intros p _. apply Hiff.
    + intros qs Hsp Hqs. eapply greedy_max; [|done..]. lia.
Qed.

(** *** Context windows *)

Lemma loose_match_windowed self content search_content term txt_file
  (case_sensitive : bool) :
  0 ≤ context_length self → 0 ≤ loose_match_length self →
  ∃ new,
    _loose_match lower self content search_content term txt_file
      case_sensitive = app_matches self new ∧
    Forall (λ m, file_name m = txt_file ∧
              ∃ start end_,
                match_span lower (loose_match_length self) search_content
                  case_sensitive start end_ m ∧
                windowed (context_length self) content start end_ m) new.
Proof.
  intros HW HL. unfold _loose_match.
  destruct (loose_scan_first self content search_content
              (keywords_of lower term case_sensitive) term txt_file 0
              (length search_content))
    as [[Hrun _]|(i & Hi & Hall & _ & Hrun)].
  - exists []. rewrite app_matches_nil. split; [exact Hrun|constructor].
  - eexists. split; [exact Hrun|]. constructor; [|constructor].
    split; [done|].
    exists i, (Z.min (i + loose_match_length self) (len search_content)).
    fold (len search_content) in Hi. split.
    + split; [lia|]. right. cbn [match_type match_term].
      split; [done|]. split; [lia|]. split; [done|]. exact Hall.
    + apply match_at_windowed; lia.
Qed.

Lemma exact_match_windowed n self content search_content term txt_file
  (case_sensitive : bool) r :
  0 ≤ context_length self →
  _exact_match lower n self content search_content term txt_file
    case_sensitive = Some r →
  ∃ new, r = app_matches self new ∧
    Forall (λ m, file_name m = txt_file ∧
              ∃ start end_,
                match_span lower (loose_match_length self) search_content
                  case_sensitive start end_ m ∧
                windowed (context_length self) content start end_ m) new.
Proof.
  intros HW. unfold _exact_match. rewrite exact_loop_positions.
  destruct (exact_positions n _ _ _ _) as [ps|] eqn:Hps; [|done].
  intros [= <-]. eexists. split; [done|].
  pose proof (len_nonneg term) as Hstep.
  apply exact_positions_greedy in Hps; [|done..].
  pose proof (greedy_spaced _ _ _ _ _ Hps) as Hsp.
  pose proof (proj1 (Forall_forall _ _) (greedy_occurs _ _ _ _ _ Hps)) as Hocc.
  unfold exact_entries. apply Forall_fmap, Forall_forall. intros p Hp.
  pose proof (spaced_lower_bound _ _ _ _ Hstep Hsp Hp).
  split; [done|]. exists p, (p + len term). split.
  - split; [lia|]. left. cbn [match_at match_type match_term].
    split; [done|]. split; [by apply Hocc|done].
  - apply match_at_windowed; lia.
Qed.

Lemma term_loop_windowed n self content search_content txt_file
  (search_terms : list str) (case_sensitive : bool) r :
  0 ≤ context_length self → 0 ≤ loose_match_length self →
  term_loop lower n self content search_content txt_file search_terms
    case_sensitive = Some r →
  ∃ new, r = app_matches self new ∧
    Forall (λ m, file_name m = txt_file ∧
              ∃ start end_,
                match_span lower (loose_match_length self) search_content
                  case_sensitive start end_ m ∧
                windowed (context_length self) content start end_ m) new.
Proof.
  revert self. induction search_terms as [|term rest IH]; intros self HW HL.
  - intros [= <-]. exists []. by rewrite app_matches_nil.
  - cbn [term_loop]. intros Hrun.
    apply bind_Some in Hrun as (self' & Hstep & Hrest).
    assert (∃ new, self' = app_matches self new ∧
              Forall (λ m, file_name m = txt_file ∧
                        ∃ start end_,
                          match_span lower (loose_match_length self)
                            search_content case_sensitive start end_ m ∧
                          windowed (context_length self) content start end_ m)
                new)
      as (new1 & -> & Hnew1).
    { destruct (contains [plus_sign] term).
      - injection Hstep as <-. by apply loose_match_windowed.
      - by eapply exact_match_windowed. }
    apply IH in Hrest as (new2 & -> & Hnew2); [|done..].
    exists (new1 ++ new2). rewrite app_matches_app. split; [done|].
    by apply Forall_app.
Qed.

(** C7.  Let [W] be the context length, not negative.  (1) For a match
    with the span from [start] to [end_], 0 <= start <= end_, [_add_match]
    appends one entry, and its context is the slice of [content] from
    [a = max(0, start - W)] to [b = min(len(content), end_ + W)]: the two
    bounds lie between 0 and the length, the context is the part of
    [content] between them, and it has at most [2 W + (end_ - start)]
    characters, [end_ - start] being the length of the match.  (2) Every
    entry the processing of a file appends, case-sensitive or not, stands
    for a match found in the text searched, an occurrence of the term or a
    window that holds every keyword, and its context is the window of the
    span of that match, cut from the text as it was read and not from its
    lower-cased view. *)
Theorem context_window n self content (name : string)
  (search_terms : list str) (case_sensitive : bool) :
  0 ≤ context_length self → 0 ≤ loose_match_length self →
  (∀ start end_ term txt_file mtype, 0 ≤ start ≤ end_ →
     let a := Z.max 0 (start - context_length self) in
     let b := Z.min (len content) (end_ + context_length self) in
     ∃ m, _add_match self content start end_ term txt_file mtype =
            app_matches self [m] ∧
       context m = slice content a b ∧
       0 ≤ a ∧ b ≤ len content ∧
       context m = take (Z.to_nat (b - a)) (drop (Z.to_nat a) content) ∧
       len (context m) ≤ 2 * context_length self + (end_ - start)) ∧
  (∀ r, _process_file lower n self (name, Some content) search_terms
          case_sensitive = Some r →
     ∃ new, r = app_matches self new ∧
       Forall (λ m, file_name m = name ∧
                 ∃ start end_,
                   match_span lower (loose_match_length self)
                     (if case_sensitive then content else lower content)
                     case_sensitive start end_ m ∧
                   windowed (context_length self) content start end_ m) new).
Proof.
  intros HW HL. split.
  - intros start end_ term txt_file mtype Hspan a b. eexists.
    split; [apply _add_match_app|].
    destruct (match_at_windowed (context_length self) content start end_ term
                txt_file mtype HW Hspan) as (Hc & Ha & Hb & Htd & _ & Hlen).
    done.
  - intros r. unfold _process_file. cbn [snd fst]. by apply term_loop_windowed.
Qed.

Lemma appends_loose content search_content term txt_file
  (case_sensitive : bool) :
  appends (λ self, Some (_loose_match lower self content search_content term
                           txt_file case_sensitive)).
Proof. intros self. simpl. f_equal. apply loose_scan_app. Qed.

Lemma appends_exact n content search_content term txt_file
  (case_sensitive : bool) :
  appends (λ self, _exact_match lower n self content search_content term
                     txt_file case_sensitive).
Proof.
  intros self. unfold _exact_match. rewrite !exact_loop_positions.
  change (context_length (fresh self)) with (context_length self).
  by destruct (exact_positions n _ _ _ _).
Qed.

Lemma appends_term_loop n content search_content txt_file
  (search_terms : list str) (case_sensitive : bool) :
  appends (λ self, term_loop lower n self content search_content txt_file
                     search_terms case_sensitive).
Proof.
  induction search_terms as [|term rest IH]; [apply appends_Some|].
  cbn [term_loop]. apply (appends_bind _ _); [|exact IH].
  destruct (contains [plus_sign] term);
    [apply appends_loose|apply appends_exact].
Qed.

Lemma appends_process_file n (txt_file : txt) (search_terms : list str)
  (case_sensitive : bool) :
  appends (λ self, _process_file lower n self txt_file search_terms
                     case_sensitive).
Proof.
  unfold _process_file. destruct (txt_file.2);
    [apply appends_term_loop|apply appends_Some].
Qed.

Lemma appends_file_loop n (txt_files : list txt) (search_terms : list str)
  (case_sensitive : bool) :
  appends (λ self, file_loop lower n self txt_files search_terms
                     case_sensitive).
Proof.
  induction txt_files as [|txt_file rest IH]; [apply appends_Some|].
  cbn [file_loop]. apply (appends_bind _ _); [|exact IH].
  apply appends_process_file.
Qed.

(** What a call of [extract_content] does to an instance that may already
    hold matches. *)
Lemma extract_content_appends n self (txt_files : list txt)
  (search_terms : list str) (case_sensitive : bool) r :
  extract_content lower n self txt_files search_terms case_sensitive = Some r →
  ∃ alone,
    extract_content lower n (fresh self) txt_files search_terms case_sensitive
      = Some alone ∧
    matches r = matches self ++ matches alone ∧
    fresh r = fresh self ∧
    (matches r ≠ [] → output_file r = Some (matches r)) ∧
    (matches r = [] → output_file r = output_file self).
Proof.
  unfold extract_content. intros Hrun.
  apply bind_Some in Hrun as (s & Hloop & [= <-]).
  rewrite appends_file_loop in Hloop.
  destruct (file_loop lower n (fresh self) _ _ _) as [s0|]; [|done].
  injection Hloop as <-. exists (_save_results s0).
  split; [done|]. rewrite !matches_save_results. split; [done|].
  unfold _save_results, app_matches. cbn [matches].
  destruct (matches self ++ matches s0); simpl; by repeat split.
Qed.

(** C10.  A new instance has no matches.  When [extract_content] is called
    on it and then called again on the same instance, the matches after the
    second call are those of the first call followed by those the second
    call alone would find on a new instance with the same settings; the
    earlier matches are kept as a prefix throughout, and when the list is
    not empty the file written by the second call holds this combined
    list. *)
Theorem matches_accumulate n1 n2 (disk : option (list Match)) (W L : Z)
  (files1 files2 : list txt) (terms1 terms2 : list str) (cs1 cs2 : bool)
  (first second : ContentExtractor) :
  extract_content lower n1 (__init__ disk W L) files1 terms1 cs1 = Some first →
  extract_content lower n2 first files2 terms2 cs2 = Some second →
  matches (__init__ disk W L) = [] ∧
  matches first `prefix_of` matches second ∧
  ∃ alone1 alone2,
    extract_content lower n1 (__init__ None W L) files1 terms1 cs1
      = Some alone1 ∧
    extract_content lower n2 (__init__ None W L) files2 terms2 cs2
      = Some alone2 ∧
    matches first = matches alone1 ∧
    matches second = matches alone1 ++ matches alone2 ∧
    (matches second ≠ [] →
     output_file second = Some (matches alone1 ++ matches alone2)).
Proof.
  intros H1 H2. split; [done|].
  apply extract_content_appends in H1
    as (alone1 & Ha1 & Hm1 & Hf1 & _ & _).
  apply extract_content_appends in H2
    as (alone2 & Ha2 & Hm2 & _ & Hout & _).
  rewrite Hf1 in Ha2. cbn [__init__ matches app] in Hm1.
  split; [rewrite Hm2; by apply prefix_app_r|].
  exists alone1, alone2. split; [done|]. split; [done|]. split; [done|].
  rewrite <-Hm1, <-Hm2. split; [done|]. exact Hout.
Qed.

End ExtractorFacts.

(** * The extractor on concrete runs *)

Section ExtractorRuns.
Import Extractor.


(** The compound term ["a+b"] in the text ["a P-value of A+B and p-value"],
    not case-sensitive, window length 12: the first window with both
    keywords starts at the offset 4, and one entry is stored, with the
    context cut from the text in its original case. *)
Lemma loose_match_run :
  matches (_loose_match ascii_lower small_extractor
             (py "a P-value of A+B and p-value")
             (ascii_lower (py "a P-value of A+B and p-value")) (py "a+b")
             "a.txt" false) =
  [mkMatch "a.txt" "loose_match" (py "a+b") (py " P-value of A+B an")].
Proof. by vm_compute. Qed.

(** The term ["aa"] in ["aaaa" ++ "a"]: two entries, for the offsets 0 and
    2; the occurrences at 1 and 3 overlap spans already found. *)
Lemma exact_match_run :
  _exact_match ascii_lower 10 small_extractor (py "aaaaa") (py "aaaaa")
    (py "aa") "a.txt" true =
  Some (app_matches small_extractor
          (exact_entries 3 (py "aaaaa") (py "aa") "a.txt" [0; 2])).
Proof. by vm_compute. Qed.

Lemma context_window_witness :
  0 ≤ context_length small_extractor ∧
  0 ≤ loose_match_length small_extractor ∧
  (∃ r, _process_file ascii_lower 20 small_extractor
          ("a.txt"%string, Some (py "a P-value")) run_terms false = Some r ∧
        length (matches r) = 1%nat) ∧
  (∀ start end_ term txt_file mtype, 0 ≤ start ≤ end_ →
     let a := Z.max 0 (start - context_length small_extractor) in
     let b := Z.min (len (py "a P-value"))
                (end_ + context_length small_extractor) in
     ∃ m, _add_match small_extractor (py "a P-value") start end_ term txt_file
            mtype = app_matches small_extractor [m] ∧
       context m = slice (py "a P-value") a b ∧
       0 ≤ a ∧ b ≤ len (py "a P-value") ∧
       context m =
         take (Z.to_nat (b - a)) (drop (Z.to_nat a) (py "a P-value")) ∧
       len (context m) ≤ 2 * context_length small_extractor + (end_ - start)) ∧
  (∀ r, _process_file ascii_lower 20 small_extractor
          ("a.txt"%string, Some (py "a P-value")) run_terms false = Some r →
     ∃ new, r = app_matches small_extractor new ∧
       Forall (λ m, file_name m = "a.txt"%string ∧
                 ∃ start end_,
                   match_span ascii_lower (loose_match_length small_extractor)
                     (ascii_lower (py "a P-value")) false start end_ m ∧
                   windowed (context_length small_extractor) (py "a P-value")
                     start end_ m) new).
Proof.
  assert (0 ≤ context_length small_extractor) as HW by (simpl; lia).
  assert (0 ≤ loose_match_length small_extractor) as HL by (simpl; lia).
  split; [exact HW|]. split; [exact HL|].
  split; [by vm_compute; eexists|].
  exact (context_window ascii_lower 20 small_extractor (py "a P-value") "a.txt"
           run_terms false HW HL).
Defined.

(** Not case-sensitive, the term ["p-value"] is found in the lower-cased
    view of ["a P-value"], and the context stored is cut from the text as
    read: it has the capital letter. *)
Lemma context_original_case :
  _process_file ascii_lower 20 small_extractor
    ("a.txt"%string, Some (py "a P-value")) [py "p-value"] false =
  Some (app_matches small_extractor
          [mkMatch "a.txt" "exact_match" (py "p-value") (py "a P-value")]).
Proof. by vm_compute. Qed.

Lemma matches_accumulate_witness :
  extract_content ascii_lower 40 (__init__ None 3 12) two_files run_terms false
    = Some after_first ∧
  extract_content ascii_lower 40 after_first two_files run_terms false
    = Some after_second ∧
  matches (__init__ None 3 12) = [] ∧
  matches after_first `prefix_of` matches after_second ∧
  ∃ alone1 alone2,
    extract_content ascii_lower 40 (__init__ None 3 12) two_files run_terms
      false = Some alone1 ∧
    extract_content ascii_lower 40 (__init__ None 3 12) two_files run_terms
      false = Some alone2 ∧
    matches after_first = matches alone1 ∧
    matches after_second = matches alone1 ++ matches alone2 ∧
    (matches after_second ≠ [] →
     output_file after_second = Some (matches alone1 ++ matches alone2)).
Proof.
  assert (extract_content ascii_lower 40 (__init__ None 3 12) two_files
            run_terms false = Some after_first) as H1 by (vm_compute; reflexivity).
  assert (extract_content ascii_lower 40 after_first two_files run_terms false
            = Some after_second) as H2 by (vm_compute; reflexivity).
  split; [exact H1|]. split; [exact H2|].
  exact (matches_accumulate ascii_lower 40 40 None 3 12 two_files two_files
           run_terms run_terms false false after_first after_second H1 H2).
Defined.

(** Two calls over the same directory: three matches after the first call,
    six after the second, and the file then holds all six. *)
Lemma second_run_saves_both :
  length (matches after_first) = 3%nat ∧
  output_file after_first = Some (matches after_first) ∧
  matches after_second = matches after_first ++ matches after_first ∧
  output_file after_second = Some (matches after_first ++ matches after_first).
Proof. by vm_compute. Qed.

Lemma exact_match_leftmost_first_witness :
  py "bc" ≠ [] ∧
  ∃ n ps,
    _exact_match ascii_lower n small_extractor (py "abcabc") (py "abcabc") (py "bc")
      "a.txt" true =
      Some (app_matches small_extractor
              (exact_entries 3 (py "abcabc") (py "bc") "a.txt" ps)) ∧
    (∀ m r, _exact_match ascii_lower m small_extractor (py "abcabc") (py "abcabc")
              (py "bc") "a.txt" true = Some r →
       r = app_matches small_extractor
             (exact_entries 3 (py "abcabc") (py "bc") "a.txt" ps)) ∧
    length (exact_entries 3 (py "abcabc") (py "bc") "a.txt" ps) = length ps ∧
    greedy (py "bc") (py "abcabc") (len (py "bc")) 0 ps ∧
    spaced (len (py "bc")) 0 ps ∧
    Forall (occurs_at (py "bc") (py "abcabc")) ps ∧
    (∀ occs, spaced (len (py "bc")) 0 occs →
       (∀ p, occurs_at (py "bc") (py "abcabc") p ↔ p ∈ occs) →
       ps = occs) ∧
    (∀ qs, spaced (len (py "bc")) 0 qs →
       Forall (occurs_at (py "bc") (py "abcabc")) qs →
       (length qs ≤ length ps)%nat).
Proof.
  split; [done|].
  apply (exact_match_leftmost_first ascii_lower small_extractor (py "abcabc") (py "abcabc")
           (py "bc") "a.txt" true).
  done.
Defined.


(** C6 at the empty term.  The empty term occurs in the text ["ab"] at the
    offsets 0, 1 and 2, with spans (of length 0) that do not overlap, so
    three entries are due; [find] returns 0 and the next search starts at 0
    again, so the loop is not left within any number of iterations and
    nothing is returned. *)
Lemma empty_term_never_returns :
  (∀ n, _exact_match ascii_lower n small_extractor (py "ab") (py "ab") [] "a.txt"
          true = None) ∧
  ¬ exact_match_counts ascii_lower small_extractor (py "ab") [] "a.txt" [0; 1; 2].
Proof.
  split; [intros n; apply exact_loop_empty_term|].
  intros H. destruct H as (n & r & Hr & _).
  - repeat (constructor; [by vm_compute|]). constructor.
  - intros p. rewrite occurs_at_empty.
    change (len (py "ab")) with 2. rewrite !elem_of_cons, elem_of_nil. lia.
  - unfold _exact_match in Hr. by rewrite exact_loop_empty_term in Hr.
Qed.

End ExtractorRuns.

(** * Further properties of the analyzer *)

Section AnalyzerMore.
Import Py Analyzer.

Implicit Types (rs : list SignificanceRecord) (thr : Z).

Lemma count_if_below_monotone b rs (t1 t2 : Z) :
  t1 ≤ t2 → count_if b (below t1 rs) ≤ count_if b (below t2 rs).
Proof.
  intros Ht. unfold count_if, below.
  induction rs as [|r rs IH]; [done|].
  rewrite !(filter_cons (λ r, context_count r < _)).
  destruct (decide (context_count r < t1)) as [H1|H1].
  - rewrite decide_True by lia. rewrite !filter_cons.
    case_decide; simpl length; lia.
  - case_decide; [|done]. rewrite filter_cons.
    case_decide; simpl length; lia.
Qed.

(** X1.  Widening the threshold never lowers a count: for thresholds
    [t1 <= t2] over the same records, the total, the true count and the
    false count at [t1] are at most those at [t2]. *)
Theorem counts_monotone rs (t1 t2 : Z) :
  t1 ≤ t2 →
  ∃ s1 s2,
    analyze_by_threshold (load rs) t1 = ret s1 ∧
    analyze_by_threshold (load rs) t2 = ret s2 ∧
    total s1 ≤ total s2 ∧
    true_count s1 ≤ true_count s2 ∧
    false_count s1 ≤ false_count s2.
Proof.
  intros Ht. exists (stat_of rs t1), (stat_of rs t2).
  rewrite !analyze_by_threshold_load. split; [done|]. split; [done|].
  split; [by apply total_monotone|].
  split; by apply count_if_below_monotone.
Qed.

Lemma counts_monotone_witness :
  2 ≤ 4 ∧
  ∃ s1 s2,
    analyze_by_threshold (load [record_A; record_B]) 2 = ret s1 ∧
    analyze_by_threshold (load [record_A; record_B]) 4 = ret s2 ∧
    total s1 ≤ total s2 ∧
    true_count s1 ≤ true_count s2 ∧
    false_count s1 ≤ false_count s2.
Proof.
  split; [lia|]. apply (counts_monotone [record_A; record_B] 2 4). lia.
Defined.

Lemma count_if_nonneg b rs : 0 ≤ count_if b rs.
Proof. unfold count_if. lia. Qed.

(** X2.  The percentage of an entry lies between 0 and 100; it is 0
    exactly when no admitted record is labelled significant, and 100
    exactly when some record is admitted and none is labelled not
    significant. *)
Theorem percentage_range rs thr :
  ∃ s, analyze_by_threshold (load rs) thr = ret s ∧
    (0 <= percentage s)%Q ∧ (percentage s <= 100)%Q ∧
    ((percentage s == 0)%Q ↔ true_count s = 0) ∧
    ((percentage s == 100)%Q ↔ 0 < total s ∧ false_count s = 0).
Proof.
  exists (stat_of rs thr). rewrite analyze_by_threshold_load.
  split; [done|]. unfold stat_of. cbn [percentage true_count false_count total].
  pose proof (count_if_nonneg true (below thr rs)) as Htc.
  pose proof (count_if_nonneg false (below thr rs)) as Hfc.
  destruct (count_if true (below thr rs)) as [|tc|tc] eqn:Etc; [| |lia];
    destruct (count_if false (below thr rs)) as [|fc|fc] eqn:Efc; try lia;
    cbn [Z.add Z.ltb Z.compare]; unfold Qle, Qeq, Qdiv, Qmult, Qinv, inject_Z;
    simpl; repeat split; intros; try lia; try done.
Qed.

Lemma sweep_prefix n data thr prev acc res :
  sweep n data thr prev acc = Some (ret res) → acc `prefix_of` res.
Proof.
  revert thr prev acc. induction n as [|n IH]; intros thr prev acc; [done|].
  cbn [sweep]. destruct (analyze_by_threshold data thr) as [e|s]; [done|].
  destruct (_ && _).
  - by intros [= <-].
  - intros H%IH. etrans; [|exact H]. by apply prefix_app_r.
Qed.

(** X3.  Whatever the loaded data, a sweep that returns a list returns a
    non-empty one (its first iteration is never the one that leaves the
    loop), so [calculate_statistics] of a returned sweep is never
    absent. *)
Theorem sweep_result_never_empty (n : nat) (data : json) (start : Z)
  (res : list ThresholdStat) :
  analyze_all_thresholds n data start = Some (ret res) →
  res ≠ [] ∧ ∃ s, calculate_statistics res = Some s.
Proof.
  unfold analyze_all_thresholds. destruct n as [|n]; [done|].
  cbn [sweep]. destruct (analyze_by_threshold data start) as [e|s]; [done|].
  destruct (Z.eqb_spec (total s) 0) as [->|]; cbn [andb].
  - simpl. intros [k ->]%sweep_prefix. simpl. split; [done|]. by eexists.
  - intros [k ->]%sweep_prefix. simpl. split; [done|]. by eexists.
Qed.

Lemma sweep_result_never_empty_witness :
  analyze_all_thresholds 2 (load [record_A]) 2 = Some (ret [mkStat 2 1 1 0 100])
  ∧ [mkStat 2 1 1 0 100] ≠ []
  ∧ ∃ s, calculate_statistics [mkStat 2 1 1 0 100] = Some s.
Proof.
  assert (analyze_all_thresholds 2 (load [record_A]) 2 =
            Some (ret [mkStat 2 1 1 0 100])) as H by (vm_compute; reflexivity).
  split; [exact H|].
  exact (sweep_result_never_empty 2 (load [record_A]) 2 _ H).
Defined.

Lemma sweep_load_never_raises n rs thr prev acc e :
  sweep n (load rs) thr prev acc ≠ Some (raise e).
Proof.
  revert thr prev acc. induction n as [|n IH]; intros thr prev acc; [done|].
  rewrite sweep_load_step. destruct (_ && _); [done|apply IH].
Qed.

(** X4.  Over well-formed records the sweep never raises, and it returns
    for some number of iterations exactly when there is at least one
    record. *)
Theorem sweep_returns_iff_records rs (start : Z) :
  ((∃ n l, analyze_all_thresholds n (load rs) start = Some (ret l)) ↔ rs ≠ []) ∧
  (∀ n e, analyze_all_thresholds n (load rs) start ≠ Some (raise e)).
Proof.
  split; [|intros n e; apply sweep_load_never_raises]. split.
  - intros (n & l & Hrun) ->. unfold analyze_all_thresholds in Hrun.
    rewrite sweep_zero in Hrun; [done|]. intros thr.
    exists (stat_of [] thr). by rewrite analyze_by_threshold_load.
  - intros Hne. destruct (sweep_result rs start Hne) as (n & t & _ & Hrun).
    by eexists _, _.
Qed.

Lemma sweep_result_unique rs start n res :
  analyze_all_thresholds n (load rs) start = Some (ret res) →
  ∃ t, first_stabilizing rs start t ∧
    res = stat_of rs <$> seqZ start (t - start).
Proof.
  intros Hrun. destruct (decide (rs = [])) as [->|Hne].
  { exfalso. unfold analyze_all_thresholds in Hrun.
    rewrite sweep_zero in Hrun; [done|]. intros thr.
    exists (stat_of [] thr). by rewrite analyze_by_threshold_load. }
  destruct (sweep_result rs start Hne) as (n' & t & Hfs & Hrun').
  exists t. split; [done|].
  pose proof (sweep_deterministic _ _ _ _ _ _ _ _ Hrun Hrun') as Heq.
  by injection Heq.
Qed.

Lemma totals_climb rs start t (u : Z) (k : nat) :
  first_stabilizing rs start t → start ≤ u → u + Z.of_nat k < t →
  0 < total (stat_of rs u) →
  total (stat_of rs u) + Z.of_nat k ≤ total (stat_of rs (u + Z.of_nat k)).
Proof.
  intros [_ Hmin] Hu. induction k as [|k IH]; intros Hk Hpos.
  - change (Z.of_nat 0) with 0. rewrite !Z.add_0_r. lia.
  - specialize (IH ltac:(lia) Hpos).
    pose proof (total_monotone rs (u + Z.of_nat k) (u + Z.of_nat (S k))
                  ltac:(lia)) as Hmono.
    destruct (decide (total (stat_of rs (u + Z.of_nat (S k))) =
                      total (stat_of rs (u + Z.of_nat k)))) as [Heq|]; [|lia].
    exfalso. assert (t ≤ u + Z.of_nat (S k)); [|lia].
    apply Hmin. unfold stabilizes. split; [lia|].
    replace (u + Z.of_nat (S k) - 1) with (u + Z.of_nat k) by lia.
    split; [done|]. lia.
Qed.

(** X5.  Along the list a sweep over well-formed records returns, the
    thresholds go up by one and the totals never go down, and from the
    first positive total on they go up strictly; so from an entry with a
    positive total to the end of the list there are at most as many entries
    as records. *)
Theorem sweep_totals_climb rs (start : Z) (n : nat) (res : list ThresholdStat) :
  analyze_all_thresholds n (load rs) start = Some (ret res) →
  (∀ (i : nat) s s', res !! i = Some s → res !! S i = Some s' →
     threshold s' = threshold s + 1 ∧ total s ≤ total s' ∧
     (0 < total s' → total s < total s')) ∧
  (∀ (i : nat) s, res !! i = Some s → 0 < total s →
     (length res - i ≤ length rs)%nat).
Proof.
  intros (t & Hfs & ->)%sweep_result_unique.
  assert (start < t) as Hlt by (destruct Hfs as [[? _] _]; done).
  split.
  - intros i s s'. rewrite !list_lookup_fmap.
    intros (u & [-> Hu]%lookup_seqZ & ->)%fmap_Some.
    intros (u' & [-> Hu']%lookup_seqZ & ->)%fmap_Some.
    cbn [stat_of threshold]. split; [lia|].
    pose proof (total_monotone rs (start + Z.of_nat i) (start + Z.of_nat (S i))
                  ltac:(lia)) as Hmono.
    split; [done|]. intros Hpos.
    destruct (decide (total (stat_of rs (start + Z.of_nat (S i))) =
                      total (stat_of rs (start + Z.of_nat i)))) as [Heq|]; [|lia].
    exfalso. destruct Hfs as [_ Hmin].
    assert (t ≤ start + Z.of_nat (S i)); [|lia].
    apply Hmin. unfold stabilizes. split; [lia|].
    replace (start + Z.of_nat (S i) - 1) with (start + Z.of_nat i) by lia.
    done.
  - intros i s. rewrite list_lookup_fmap.
    intros (u & [-> Hu]%lookup_seqZ & ->)%fmap_Some Hpos.
    rewrite length_fmap, length_seqZ.
    pose proof (totals_climb rs start t (start + Z.of_nat i)
                  (Z.to_nat (t - 1 - (start + Z.of_nat i))) Hfs
                  ltac:(lia) ltac:(lia) Hpos) as Hclimb.
    replace (start + Z.of_nat i + Z.of_nat (Z.to_nat (t - 1 - (start + Z.of_nat i))))
      with (t - 1) in Hclimb by lia.
    pose proof (size_below_le rs (t - 1)) as Hle.
    rewrite <-total_stat_of in Hle. unfold size in Hle. lia.
Qed.

Lemma sweep_totals_climb_witness :
  analyze_all_thresholds 3 (load [record_B; record_A]) 1 =
    Some (ret (stat_of [record_B; record_A] <$> seqZ 1 2)) ∧
  (∀ (i : nat) s s',
     (stat_of [record_B; record_A] <$> seqZ 1 2) !! i = Some s →
     (stat_of [record_B; record_A] <$> seqZ 1 2) !! S i = Some s' →
     threshold s' = threshold s + 1 ∧ total s ≤ total s' ∧
     (0 < total s' → total s < total s')) ∧
  (∀ (i : nat) s,
     (stat_of [record_B; record_A] <$> seqZ 1 2) !! i = Some s → 0 < total s →
     (length (stat_of [record_B; record_A] <$> seqZ 1 2) - i
      ≤ length [record_B; record_A])%nat).
Proof.
  assert (analyze_all_thresholds 3 (load [record_B; record_A]) 1 =
            Some (ret (stat_of [record_B; record_A] <$> seqZ 1 2))) as H
    by (vm_compute; reflexivity).
  split; [exact H|].
  exact (sweep_totals_climb [record_B; record_A] 1 3 _ H).
Defined.

(** X6.  When every record has a context count below the start
    threshold, the sweep returns exactly one entry, the one of the start
    threshold, and its total is the number of records. *)
Theorem sweep_single_entry rs (start : Z) :
  rs ≠ [] → (∀ r, r ∈ rs → context_count r < start) →
  ∃ n s, analyze_all_thresholds n (load rs) start = Some (ret [s]) ∧
    analyze_by_threshold (load rs) start = ret s ∧
    total s = Z.of_nat (length rs).
Proof.
  intros Hne Hall. exists 2%nat, (stat_of rs start).
  assert (∀ t, start ≤ t → total (stat_of rs t) = size rs) as Hfull.
  { intros t Ht. rewrite total_stat_of. apply size_below_full.
    intros r Hr. specialize (Hall r Hr). lia. }
  assert (0 < size rs) as Hpos.
  { unfold size. destruct rs; [done|]. simpl length. lia. }
  split; [|split; [apply analyze_by_threshold_load|by apply Hfull]].
  unfold analyze_all_thresholds. rewrite !sweep_load_step.
  rewrite !Hfull by lia.
  destruct (Z.eqb_spec (size rs) 0) as [|_]; [lia|]. cbn [andb].
  rewrite Z.eqb_refl, (proj2 (Z.ltb_lt _ _) Hpos). done.
Qed.

Lemma sweep_single_entry_witness :
  [record_A] ≠ [] ∧ (∀ r, r ∈ [record_A] → context_count r < 2) ∧
  ∃ n s, analyze_all_thresholds n (load [record_A]) 2 = Some (ret [s]) ∧
    analyze_by_threshold (load [record_A]) 2 = ret s ∧
    total s = Z.of_nat (length [record_A]).
Proof.
  assert (∀ r, r ∈ [record_A] → context_count r < 2) as Hall.
  { intros r ->%list_elem_of_singleton. simpl. lia. }
  split; [done|]. split; [exact Hall|].
  exact (sweep_single_entry [record_A] 2 ltac:(done) Hall).
Defined.

(** X7.  A record without [context_count] that follows well-formed records
    makes the sweep raise [KeyError] in its first iteration, whatever the
    start threshold: the call fails, it does not loop. *)
Theorem sweep_raises_on_missing_count (d0 d : gmap string json)
  (pre : list SignificanceRecord) (post : list json) (start : Z) (n : nat) :
  d !! "context_count" = None →
  analyze_all_thresholds (S n)
    (results_file d0 ((record_json <$> pre) ++ JDict d :: post)) start =
  Some (raise KeyError).
Proof.
  intros Hcc. unfold analyze_all_thresholds. cbn [sweep].
  unfold analyze_by_threshold. rewrite _count_results_file, count_loop_app.
  cbn [count_loop getitem]. by rewrite Hcc.
Qed.

Lemma sweep_raises_on_missing_count_witness :
  nameless !! "context_count" = None ∧
  analyze_all_thresholds 1
    (results_file ∅ ((record_json <$> [record_A]) ++ [JDict nameless])) 2 =
  Some (raise KeyError).
Proof.
  split; [reflexivity|].
  exact (sweep_raises_on_missing_count ∅ nameless [record_A] [] 2 0 eq_refl).
Defined.

End AnalyzerMore.

(** * Further properties of the extractor *)

Section ExtractorMore.
Import Extractor ExtractorNotions.

Variable lower : str → str.

Implicit Types (self : ContentExtractor) (content search_content term : str).
Implicit Types (txt_file mtype : string) (new : list Match).

Lemma substring_trans (a b c : str) :
  substring a b → substring b c → substring a c.
Proof.
  intros (p1 & q1 & ->) (p2 & q2 & ->). exists (p2 ++ p1), (q1 ++ q2).
  by rewrite <-!app_assoc.
Qed.

Lemma slice_covers (pre t post : str) (a b : Z) :
  0 ≤ a ≤ len pre → len pre + len t ≤ b →
  substring t (slice (pre ++ t ++ post) a b).
Proof.
  intros Ha Hb. unfold slice, clip_index. fold (len (pre ++ t ++ post)).
  rewrite !len_app. pose proof (len_nonneg t). pose proof (len_nonneg post).
  rewrite (proj2 (Z.ltb_ge a 0)), (proj2 (Z.ltb_ge b 0)) by lia.
  rewrite (Z.min_l a) by lia. unfold len in *.
  exists (drop (Z.to_nat a) pre).
  rewrite drop_app_le by lia. eexists.
  rewrite take_app, (take_ge (drop _ pre)) by (rewrite length_drop; lia).
  f_equal. rewrite take_app, (take_ge t) by (rewrite length_drop; lia).
  reflexivity.
Qed.

Lemma slice_middle (s : str) (i j : Z) :
  0 ≤ i ≤ j → j ≤ len s →
  s = take (Z.to_nat i) s ++ slice s i j ++ drop (Z.to_nat j) s ∧
  len (take (Z.to_nat i) s) = i ∧ len (slice s i j) = j - i.
Proof.
  intros Hi Hj. rewrite slice_take_drop by lia. unfold len in *.
  rewrite !length_take, length_drop. split; [|lia].
  rewrite app_assoc, take_take_drop.
  replace (Z.to_nat i + Z.to_nat (j - i))%nat with (Z.to_nat j) by lia.
  by rewrite take_drop.
Qed.

Lemma view_length (case_sensitive : bool) (s : str) :
  case_sensitive = true ∨ charwise lower →
  length (view lower case_sensitive s) = length s.
Proof.
  intros [->|[g Hg]]; [done|]. destruct case_sensitive; [done|].
  simpl. by rewrite Hg, length_fmap.
Qed.

Lemma view_slice (case_sensitive : bool) (s : str) (a b : Z) :
  case_sensitive = true ∨ charwise lower →
  view lower case_sensitive (slice s a b) =
  slice (view lower case_sensitive s) a b.
Proof.
  intros [->|[g Hg]]; [done|]. destruct case_sensitive; [done|].
  simpl. rewrite !Hg. unfold slice. by rewrite fmap_take, fmap_drop, length_fmap.
Qed.

Lemma exact_match_holds n self content term txt_file (case_sensitive : bool) r :
  0 ≤ context_length self → case_sensitive = true ∨ charwise lower →
  _exact_match lower n self content (view lower case_sensitive content) term
    txt_file case_sensitive = Some r →
  ∃ new, r = app_matches self new ∧
    Forall (holds_match lower case_sensitive) new.
Proof.
  intros HW Hview. unfold _exact_match. rewrite exact_loop_positions.
  destruct (exact_positions n _ _ _ _) as [ps|] eqn:Hps; [|done].
  intros [= <-]. eexists. split; [done|].
  apply exact_positions_greedy, greedy_occurs in Hps;
    [|apply len_nonneg|done].
  unfold exact_entries. apply Forall_fmap.
  eapply Forall_impl; [exact Hps|]. intros p Hocc. left. split; [done|].
  cbn [match_at match_term context]. rewrite view_slice by done.
  fold (view lower case_sensitive term) in Hocc.
  pose proof (occurs_at_bounds _ _ _ Hocc) as [Hp0 Hpn].
  destruct Hocc as (pre & post & Heq & Hpre). rewrite Heq.
  assert (len (view lower case_sensitive term) = len term) as Hlt.
  { unfold len. by rewrite view_length. }
  assert (len (view lower case_sensitive content) = len content) as Hlc.
  { unfold len. by rewrite view_length. }
  apply slice_covers; lia.
Qed.

Lemma loose_match_holds self content term txt_file (case_sensitive : bool) :
  0 ≤ context_length self → 0 ≤ loose_match_length self →
  case_sensitive = true ∨ charwise lower →
  ∃ new,
    _loose_match lower self content (view lower case_sensitive content) term
      txt_file case_sensitive = app_matches self new ∧
    Forall (holds_match lower case_sensitive) new.
Proof.
  intros HW HL Hview. unfold _loose_match.
  set (sc := view lower case_sensitive content).
  destruct (loose_scan_first self content sc
              (keywords_of lower term case_sensitive) term txt_file 0
              (length sc)) as [[Hrun _]|(i & Hi & Hall & _ & Hrun)].
  - exists []. rewrite app_matches_nil. split; [exact Hrun|constructor].
  - eexists. split; [exact Hrun|]. constructor; [|constructor]. right.
    split; [done|]. cbn [match_at match_term context].
    rewrite view_slice by done. fold sc.
    assert (len sc = len content) as Hlc.
    { unfold len, sc. by rewrite view_length. }
    fold (len sc) in Hi.
    set (we := Z.min (i + loose_match_length self) (len sc)) in *.
    destruct (slice_middle sc i we) as (Hsc & Hpre & Hmid); [lia|lia|].
    intros k Hk. eapply substring_trans; [exact (Hall k Hk)|].
    unfold window. fold we. rewrite Hsc at 2.
    apply slice_covers; lia.
Qed.

(** X9.  With a non-negative context length and window length, and a
    search that is case-sensitive or a lower case that works character by
    character, every entry the processing of a file appends has a context
    that holds what was searched for: in the view searched, the term of an
    exact match occurs in the context, and every keyword of a loose match
    occurs in it. *)
Theorem contexts_hold_matches n self content (name : string)
  (search_terms : list str) (case_sensitive : bool) r :
  0 ≤ context_length self → 0 ≤ loose_match_length self →
  case_sensitive = true ∨ charwise lower →
  _process_file lower n self (name, Some content) search_terms case_sensitive
    = Some r →
  ∃ new, r = app_matches self new ∧
    Forall (holds_match lower case_sensitive) new.
Proof.
  intros HW HL Hview. unfold _process_file. cbn [fst snd].
  fold (view lower case_sensitive content).
  revert self HW HL. induction search_terms as [|term rest IH]; intros self HW HL.
  - intros [= <-]. exists []. by rewrite app_matches_nil.
  - cbn [term_loop]. intros Hrun.
    apply bind_Some in Hrun as (self' & Hstep & Hrest).
    assert (∃ new, self' = app_matches self new ∧
              Forall (holds_match lower case_sensitive) new)
      as (new1 & -> & Hnew1).
    { destruct (contains [plus_sign] term).
      - injection Hstep as <-. by apply loose_match_holds.
      - by eapply exact_match_holds. }
    apply IH in Hrest as (new2 & -> & Hnew2); [|done..].
    exists (new1 ++ new2). rewrite app_matches_app. split; [done|].
    by apply Forall_app.
Qed.

Lemma spaced_last_bound (step lo : Z) (ps : list Z) (p : Z) :
  0 ≤ step → spaced step lo ps → last ps = Some p →
  lo + (Z.of_nat (length ps) - 1) * step ≤ p.
Proof.
  intros Hstep Hsp. revert p. induction Hsp as [|lo q ps Hq Hsp IH]; [done|].
  intros p. destruct ps as [|q' ps].
  - simpl. intros [= <-]. lia.
  - rewrite last_cons_cons. intros Hp. specialize (IH p Hp).
    cbn [length] in *. nia.
Qed.

(** X10.  The exact matches of one term in one text are bounded by the
    text: when [_exact_match] returns with [k > 0] new entries, then
    [(k - 1) * len(term)] plus the length of the term searched is at most
    the length of the text searched; case-sensitive, [k * len(term)] is at
    most that length. *)
Theorem exact_match_count_bound n self content search_content term txt_file
  (case_sensitive : bool) r :
  _exact_match lower n self content search_content term txt_file
    case_sensitive = Some r →
  ∃ k : nat,
    length (matches r) = (length (matches self) + k)%nat ∧
    (0 < Z.of_nat k →
     (Z.of_nat k - 1) * len term + len (view lower case_sensitive term)
     ≤ len search_content) ∧
    (case_sensitive = true → Z.of_nat k * len term ≤ len search_content).
Proof.
  unfold _exact_match. rewrite exact_loop_positions.
  fold (view lower case_sensitive term).
  destruct (exact_positions n _ _ _ _) as [ps|] eqn:Hps; [|done].
  intros [= <-]. exists (length ps).
  cbn [app_matches matches]. unfold exact_entries.
  rewrite length_app, length_fmap. split; [done|].
  pose proof (len_nonneg term) as Hstep.
  apply exact_positions_greedy in Hps; [|done..].
  pose proof (greedy_spaced _ _ _ _ _ Hps) as Hsp.
  pose proof (greedy_occurs _ _ _ _ _ Hps) as Hocc.
  assert (0 < Z.of_nat (length ps) →
          (Z.of_nat (length ps) - 1) * len term
          + len (view lower case_sensitive term) ≤ len search_content) as Hb.
  { intros Hk. destruct (last ps) as [p|] eqn:Hlast.
    - pose proof (spaced_last_bound _ _ _ _ Hstep Hsp Hlast).
      apply last_Some_elem_of in Hlast.
      rewrite Forall_forall in Hocc. apply Hocc, occurs_at_bounds in Hlast.
      lia.
    - apply last_None in Hlast. subst ps. simpl in Hk. lia. }
  split; [exact Hb|]. intros ->. cbn [view] in Hb.
  pose proof (len_nonneg search_content).
  destruct ps; [simpl; lia|]. specialize (Hb ltac:(simpl; lia)). lia.
Qed.

Lemma file_loop_app n self (files1 files2 : list txt)
  (search_terms : list str) (case_sensitive : bool) :
  file_loop lower n self (files1 ++ files2) search_terms case_sensitive =
  file_loop lower n self files1 search_terms case_sensitive ≫=
    λ s, file_loop lower n s files2 search_terms case_sensitive.
Proof.
  revert self. induction files1 as [|f files1 IH]; intros self; [done|].
  cbn [app file_loop].
  destruct (_process_file lower n self f search_terms case_sensitive);
    [apply IH|done].
Qed.

(** X11.  The matches follow the order of the files: when the calls over
    two listings return on new instances, the call over the first listing
    followed by the second returns on any instance with the same settings,
    and its matches are the ones already there, then those of the first
    listing, then those of the second. *)
Theorem extract_content_files_app n self (files1 files2 : list txt)
  (search_terms : list str) (case_sensitive : bool) r1 r2 :
  extract_content lower n (fresh self) files1 search_terms case_sensitive
    = Some r1 →
  extract_content lower n (fresh self) files2 search_terms case_sensitive
    = Some r2 →
  ∃ r, extract_content lower n self (files1 ++ files2) search_terms
         case_sensitive = Some r ∧
    matches r = matches self ++ matches r1 ++ matches r2.
Proof.
  unfold extract_content. intros H1 H2.
  apply bind_Some in H1 as (s1 & Hs1 & [= <-]).
  apply bind_Some in H2 as (s2 & Hs2 & [= <-]).
  rewrite file_loop_app, (appends_file_loop lower n files1), Hs1.
  cbn [fmap option_fmap option_map mbind option_bind].
  rewrite (appends_file_loop lower n files2), fresh_app_matches, Hs2.
  cbn [fmap option_fmap option_map mbind option_bind].
  eexists. split; [done|]. rewrite !matches_save_results.
  cbn [app_matches matches]. by rewrite <-app_assoc.
Qed.

Lemma file_loop_readable n self (txt_files : list txt)
  (search_terms : list str) (case_sensitive : bool) :
  file_loop lower n self txt_files search_terms case_sensitive =
  file_loop lower n self (readable txt_files) search_terms case_sensitive.
Proof.
  revert self. induction txt_files as [|[name [content|]] rest IH]; intros self.
  - done.
  - unfold readable. rewrite filter_cons_True by (simpl; eauto).
    cbn [file_loop]. destruct (_process_file _ _ _ _ _ _); [apply IH|done].
  - unfold readable. rewrite filter_cons_False by (simpl; by intros [? ?]).
    cbn [file_loop _process_file snd mbind option_bind]. apply IH.
Qed.

(** X12.  Files that cannot be read are passed over: a call over a listing
    does exactly what the call over its readable files does. *)
Theorem extract_content_skips_unreadable n self (txt_files : list txt)
  (search_terms : list str) (case_sensitive : bool) :
  extract_content lower n self txt_files search_terms case_sensitive =
  extract_content lower n self (readable txt_files) search_terms
    case_sensitive.
Proof. unfold extract_content. by rewrite file_loop_readable. Qed.

Lemma exact_match_returns n self content search_content term txt_file
  (case_sensitive : bool) :
  term ≠ [] → (length search_content + 1 < n)%nat →
  ∃ r, _exact_match lower n self content search_content term txt_file
         case_sensitive = Some r.
Proof.
  intros Hterm Hn. unfold _exact_match. rewrite exact_loop_positions.
  destruct (exact_positions_returns n search_content
              (if case_sensitive then term else lower term) (len term) 0)
    as [ps ->]; [|done| |by eexists].
  - unfold len. destruct term; [done|]. simpl length. lia.
  - unfold len. lia.
Qed.

Lemma term_loop_returns n self content search_content txt_file
  (search_terms : list str) (case_sensitive : bool) :
  [] ∉ search_terms → (length search_content + 1 < n)%nat →
  ∃ r, term_loop lower n self content search_content txt_file search_terms
         case_sensitive = Some r.
Proof.
  intros Hterms Hn. revert self.
  induction search_terms as [|term rest IH]; intros self; [by eexists|].
  apply not_elem_of_cons in Hterms as [Hterm Hrest]. cbn [term_loop].
  destruct (contains [plus_sign] term).
  - cbn [mbind option_bind]. by apply IH.
  - destruct (exact_match_returns n self content search_content term txt_file
                case_sensitive) as [r ->]; [done..|].
    cbn [mbind option_bind]. by apply IH.
Qed.

Lemma enough_bound (case_sensitive : bool) (txt_files : list txt) (f : txt) :
  f ∈ txt_files →
  (length (view lower case_sensitive (default [] f.2)) + 2
   ≤ enough lower case_sensitive txt_files)%nat.
Proof.
  unfold enough. induction txt_files as [|g rest IH]; intros Hf.
  - by apply not_elem_of_nil in Hf.
  - rewrite fmap_cons. cbn [foldr].
    apply elem_of_cons in Hf as [->|Hf]; [lia|]. specialize (IH Hf). lia.
Qed.

Lemma file_loop_returns n self (txt_files : list txt)
  (search_terms : list str) (case_sensitive : bool) :
  [] ∉ search_terms →
  (∀ f, f ∈ txt_files →
     (length (view lower case_sensitive (default [] f.2)) + 1 < n)%nat) →
  ∃ r, file_loop lower n self txt_files search_terms case_sensitive = Some r.
Proof.
  intros Hterms. revert self.
  induction txt_files as [|[name content] rest IH]; intros self Hn;
    [by eexists|].
  cbn [file_loop]. pose proof (Hn (name, content) ltac:(by left)) as Hf.
  assert (∃ r, _process_file lower n self (name, content) search_terms
                 case_sensitive = Some r) as [r ->].
  { unfold _process_file. cbn [snd fst] in *.
    destruct content as [content|]; [|by eexists].
    apply term_loop_returns; [done|]. exact Hf. }
  cbn [mbind option_bind]. apply IH. intros f Hin. apply Hn. by right.
Qed.

Lemma term_loop_hangs n self content search_content txt_file
  (search_terms : list str) (case_sensitive : bool) :
  lower [] = [] → [] ∈ search_terms →
  term_loop lower n self content search_content txt_file search_terms
    case_sensitive = None.
Proof.
  intros Hlower. revert self.
  induction search_terms as [|term rest IH]; intros self Hin.
  - by apply not_elem_of_nil in Hin.
  - cbn [term_loop]. destruct (decide (term = [])) as [->|Hterm].
    + cbn [contains startswith orb]. unfold _exact_match. rewrite Hlower.
      destruct case_sensitive; by rewrite exact_loop_empty_term.
    + apply elem_of_cons in Hin as [|Hin]; [done|].
      destruct (if contains [plus_sign] term then _ else _); [|done].
      cbn [mbind option_bind]. by apply IH.
Qed.

Lemma file_loop_hangs n self (txt_files : list txt)
  (search_terms : list str) (case_sensitive : bool) :
  lower [] = [] → [] ∈ search_terms → readable txt_files ≠ [] →
  file_loop lower n self txt_files search_terms case_sensitive = None.
Proof.
  intros Hlower Hterms. rewrite file_loop_readable.
  destruct (readable txt_files) as [|[name content] rest] eqn:Hr; [done|].
  intros _. assert (is_Some content) as [c ->].
  { assert ((name, content) ∈ readable txt_files) as Hin
      by (rewrite Hr; by left).
    unfold readable in Hin. by apply list_elem_of_filter in Hin as [? _]. }
  cbn [file_loop _process_file snd fst].
  by rewrite term_loop_hangs.
Qed.

(** X13.  When the lower case of the empty string is empty, a call of
    [extract_content] returns for some number of iterations exactly when no
    search term is empty or no file can be read; and when no term is empty
    it returns for every number of iterations from [enough] on, two more
    than the longest text searched. *)
Theorem extract_content_returns_iff self (txt_files : list txt)
  (search_terms : list str) (case_sensitive : bool) :
  lower [] = [] →
  ((∃ n r, extract_content lower n self txt_files search_terms case_sensitive
           = Some r) ↔
   [] ∉ search_terms ∨ readable txt_files = []) ∧
  ([] ∉ search_terms →
   ∀ n, (enough lower case_sensitive txt_files ≤ n)%nat →
     ∃ r, extract_content lower n self txt_files search_terms case_sensitive
          = Some r).
Proof.
  intros Hlower.
  assert ([] ∉ search_terms →
          ∀ n, (enough lower case_sensitive txt_files ≤ n)%nat →
            ∃ r, extract_content lower n self txt_files search_terms
                   case_sensitive = Some r) as Hret.
  { intros Hterms n Hn. unfold extract_content.
    destruct (file_loop_returns n self txt_files search_terms case_sensitive)
      as [r ->]; [done| |by eexists].
    intros f Hf. pose proof (enough_bound case_sensitive txt_files f Hf). lia. }
  split; [|exact Hret]. split.
  - intros (n & r & Hrun).
    destruct (decide ([] ∈ search_terms)) as [Hin|]; [|by left].
    destruct (decide (readable txt_files = [])) as [|Hr]; [by right|].
    unfold extract_content in Hrun.
    by rewrite file_loop_hangs in Hrun.
  - intros [Hterms|Hnone].
    + destruct (Hret Hterms _ (le_n _)) as [r Hr]. by eexists _, _.
    + exists 0%nat. unfold extract_content.
      rewrite file_loop_readable, Hnone. by eexists.
Qed.

End ExtractorMore.

Section ExtractorMoreRuns.
Import Extractor ExtractorNotions.

Lemma ascii_lower_charwise : charwise ascii_lower.
Proof. by eexists. Qed.

Lemma contexts_hold_matches_witness :
  0 ≤ context_length small_extractor ∧
  0 ≤ loose_match_length small_extractor ∧
  (false = true ∨ charwise ascii_lower) ∧
  ∃ r, _process_file ascii_lower 40 small_extractor
         ("a.txt"%string, Some (py "a P-value of A+B and p-value")) run_terms
         false = Some r ∧
    ∃ new, r = app_matches small_extractor new ∧
      Forall (holds_match ascii_lower false) new.
Proof.
  assert (0 ≤ context_length small_extractor) as HW by (simpl; lia).
  assert (0 ≤ loose_match_length small_extractor) as HL by (simpl; lia).
  assert (false = true ∨ charwise ascii_lower) as Hv
    by (right; apply ascii_lower_charwise).
  assert (∃ r, _process_file ascii_lower 40 small_extractor
                 ("a.txt"%string, Some (py "a P-value of A+B and p-value"))
                 run_terms false = Some r) as [r Hrun].
  { vm_compute. eexists. reflexivity. }
  split; [exact HW|]. split; [exact HL|]. split; [exact Hv|].
  exists r. split; [exact Hrun|].
  exact (contexts_hold_matches ascii_lower 40 small_extractor _ "a.txt"
           run_terms false r HW HL Hv Hrun).
Defined.

Lemma exact_match_count_bound_witness :
  ∃ r, _exact_match ascii_lower 10 small_extractor (py "aaaaa") (py "aaaaa")
         (py "aa") "a.txt" true = Some r ∧
    ∃ k : nat,
      length (matches r) = (length (matches small_extractor) + k)%nat ∧
      (0 < Z.of_nat k →
       (Z.of_nat k - 1) * len (py "aa") + len (view ascii_lower true (py "aa"))
       ≤ len (py "aaaaa")) ∧
      (true = true → Z.of_nat k * len (py "aa") ≤ len (py "aaaaa")).
Proof.
  assert (∃ r, _exact_match ascii_lower 10 small_extractor (py "aaaaa")
                 (py "aaaaa") (py "aa") "a.txt" true = Some r) as [r Hrun].
  { vm_compute. eexists. reflexivity. }
  exists r. split; [exact Hrun|].
  exact (exact_match_count_bound ascii_lower 10 small_extractor (py "aaaaa")
           (py "aaaaa") (py "aa") "a.txt" true r Hrun).
Defined.

Lemma extract_content_files_app_witness :
  ∃ r1 r2,
    extract_content ascii_lower 40 (fresh after_first) two_files run_terms
      false = Some r1 ∧
    extract_content ascii_lower 40 (fresh after_first) two_files run_terms
      false = Some r2 ∧
    ∃ r, extract_content ascii_lower 40 after_first (two_files ++ two_files)
           run_terms false = Some r ∧
      matches r = matches after_first ++ matches r1 ++ matches r2.
Proof.
  assert (∃ r1, extract_content ascii_lower 40 (fresh after_first) two_files
                  run_terms false = Some r1) as [r1 H1].
  { vm_compute. eexists. reflexivity. }
  assert (∃ r2, extract_content ascii_lower 40 (fresh after_first) two_files
                  run_terms false = Some r2) as [r2 H2].
  { vm_compute. eexists. reflexivity. }
  exists r1, r2. split; [exact H1|]. split; [exact H2|].
  exact (extract_content_files_app ascii_lower 40 after_first two_files
           two_files run_terms false r1 r2 H1 H2).
Defined.

Lemma extract_content_returns_iff_witness :
  ascii_lower [] = [] ∧
  ((∃ n r, extract_content ascii_lower n small_extractor two_files run_terms
             false = Some r) ↔
   [] ∉ run_terms ∨ readable two_files = []) ∧
  ([] ∉ run_terms →
   ∀ n, (enough ascii_lower false two_files ≤ n)%nat →
     ∃ r, extract_content ascii_lower n small_extractor two_files run_terms
            false = Some r).
Proof.
  split; [reflexivity|].
  exact (extract_content_returns_iff ascii_lower small_extractor two_files
           run_terms false eq_refl).
Defined.

End ExtractorMoreRuns.

(** * Properties of the judge *)

Section JudgeFacts.
Import Extractor Judge.

Implicit Types (ms : list Match) (f : string).

Lemma elem_of_nub (x : string) (l : list string) : x ∈ nub l ↔ x ∈ l.
Proof.
  induction l as [|y l IH]; [done|]. cbn [nub].
  rewrite !elem_of_cons, list_elem_of_filter, IH.
  destruct (decide (x = y)); tauto.
Qed.

Lemma NoDup_nub (l : list string) : NoDup (nub l).
Proof.
  induction l as [|y l IH]; cbn [nub]; constructor.
  - rewrite list_elem_of_filter. tauto.
  - by apply NoDup_filter.
Qed.

Lemma nub_snoc (l : list string) (x : string) :
  nub (l ++ [x]) = if decide (x ∈ l) then nub l else nub l ++ [x].
Proof.
  induction l as [|y l IH]; [done|]. cbn [app nub]. rewrite IH. clear IH.
  destruct (decide (x ∈ y :: l)) as [Hin|Hnin];
    destruct (decide (x ∈ l)) as [Hl|Hl]; try done.
  - apply elem_of_cons in Hin as [->|]; [|done].
    rewrite filter_app, filter_cons_False by tauto.
    by rewrite filter_nil, app_nil_r.
  - exfalso. apply Hnin. by right.
  - rewrite filter_app, filter_cons_True; [done|].
    intros ->. apply Hnin. by left.
Qed.

Lemma od_mem_spec {V} (key : string) (d : odict V) :
  od_mem key d = true ↔ key ∈ d.*1.
Proof.
  induction d as [|[k v] d IH]; cbn [od_mem]; [by rewrite elem_of_nil|].
  rewrite orb_true_iff, bool_decide_eq_true, IH, fmap_cons, elem_of_cons.
  cbn [fst]. split; (intros [?|?]; [by left|by right]).
Qed.

Lemma od_append_absent (key : string) (v : str) (d : odict (list str)) :
  key ∉ d.*1 → od_append key v (d ++ [(key, [])]) = d ++ [(key, [v])].
Proof.
  induction d as [|[k l] d IH]; intros Hk; cbn [app od_append].
  - by rewrite bool_decide_true.
  - rewrite fmap_cons in Hk. apply not_elem_of_cons in Hk as [Hk Hd].
    rewrite bool_decide_false by done. f_equal. by apply IH.
Qed.

Lemma od_append_present (key : string) (v : str) (c : string → list str)
  (keys : list string) :
  NoDup keys →
  od_append key v ((λ k, (k, c k)) <$> keys) =
  (λ k, (k, c k ++ if decide (key = k) then [v] else [])) <$> keys.
Proof.
  induction 1 as [|k keys Hk Hnd IH]; [done|].
  rewrite !fmap_cons. cbn [od_append]. case_bool_decide as Hkey.
  - subst k. rewrite decide_True by done. f_equal.
    apply list_fmap_ext. intros i k Hik.
    rewrite decide_False; [by rewrite app_nil_r|].
    intros ->. apply Hk. by eapply list_elem_of_lookup_2.
  - rewrite decide_False by done. rewrite app_nil_r. f_equal. apply IH.
Qed.

Lemma contexts_of_snoc f ms (m : Match) :
  contexts_of f (ms ++ [m]) =
  contexts_of f ms ++ if decide (file_name m = f) then [context m] else [].
Proof.
  unfold contexts_of. rewrite filter_app, fmap_app. f_equal.
  rewrite filter_cons. by case_decide.
Qed.

Lemma contexts_of_absent f ms :
  f ∉ file_name <$> ms → contexts_of f ms = [].
Proof.
  unfold contexts_of. induction ms as [|m ms IH]; [done|].
  rewrite fmap_cons, not_elem_of_cons. intros [Hm Hms].
  rewrite filter_cons_False by done. by apply IH.
Qed.

Lemma group_step ms (m : Match) :
  let grouped :=
    (λ f, (f, contexts_of f ms)) <$> nub (file_name <$> ms) in
  od_append (file_name m) (context m)
    (if od_mem (file_name m) grouped then grouped
     else grouped ++ [(file_name m, [])]) =
  (λ f, (f, contexts_of f (ms ++ [m]))) <$> nub (file_name <$> ms ++ [m]).
Proof.
  intros grouped. rewrite (fmap_app file_name).
  change (file_name <$> [m]) with [file_name m]. rewrite nub_snoc.
  assert (grouped.*1 = nub (file_name <$> ms)) as Hkeys.
  { unfold grouped. rewrite <-list_fmap_compose. apply list_fmap_id. }
  destruct (decide (file_name m ∈ file_name <$> ms)) as [Hin|Hnin].
  - assert (od_mem (file_name m) grouped = true) as ->.
    { apply od_mem_spec. rewrite Hkeys. by apply elem_of_nub. }
    unfold grouped. rewrite od_append_present by apply NoDup_nub.
    apply list_fmap_ext. intros i f _. by rewrite contexts_of_snoc.
  - assert (od_mem (file_name m) grouped = false) as ->.
    { apply not_true_is_false. rewrite od_mem_spec, Hkeys, elem_of_nub. done. }
    rewrite od_append_absent by (rewrite Hkeys, elem_of_nub; done).
    rewrite fmap_app. cbn [fmap list_fmap]. f_equal.
    + apply list_fmap_ext. intros i f Hf. rewrite contexts_of_snoc.
      rewrite decide_False; [by rewrite app_nil_r|].
      intros Heq. apply Hnin. rewrite Heq. apply elem_of_nub.
      by eapply list_elem_of_lookup_2.
    + rewrite contexts_of_snoc, contexts_of_absent by done.
      by rewrite decide_True.
Qed.

Lemma group_loop_spec (pre rest : list Match) :
  group_loop ((λ f, (f, contexts_of f pre)) <$> nub (file_name <$> pre)) rest
  = (λ f, (f, contexts_of f (pre ++ rest)))
      <$> nub (file_name <$> pre ++ rest).
Proof.
  revert pre. induction rest as [|m rest IH]; intros pre.
  - by rewrite app_nil_r.
  - cbn [group_loop]. rewrite group_step, IH. by rewrite <-app_assoc.
Qed.

Lemma od_append_total (key : string) (v : str) (d : odict (list str)) :
  key ∈ d.*1 → group_total (od_append key v d) = S (group_total d).
Proof.
  induction d as [|[k l] d IH]; [by rewrite elem_of_nil|].
  rewrite fmap_cons, elem_of_cons. cbn [fst od_append]. intros Hk.
  case_bool_decide as Hkey; cbn [group_total foldr snd].
  - rewrite length_app. simpl. lia.
  - fold (group_total d) (group_total (od_append key v d)).
    rewrite IH; [lia|]. by destruct Hk.
Qed.

Lemma group_loop_total (grouped : odict (list str)) ms :
  group_total (group_loop grouped ms) = (group_total grouped + length ms)%nat.
Proof.
  revert grouped. induction ms as [|m ms IH]; intros grouped.
  - simpl. lia.
  - cbn [group_loop length]. rewrite IH, od_append_total.
    + destruct (od_mem (file_name m) grouped); [lia|].
      unfold group_total. rewrite foldr_app. simpl.
      fold (group_total grouped). lia.
    + destruct (od_mem (file_name m) grouped) eqn:Hm.
      * by apply od_mem_spec.
      * rewrite fmap_app, elem_of_app. right. by left.
Qed.

(** X14.  [_group_contexts] yields one group per file that has a match, in
    the order in which the files first occur among the matches; the group
    of a file holds the contexts of all its matches, in their order.  So
    the keys are distinct, no group is empty, and the sizes of the groups
    add up to the number of matches. *)
Theorem group_contexts_by_file ms :
  _group_contexts ms =
    (λ f, (f, contexts_of f ms)) <$> nub (file_name <$> ms) ∧
  NoDup (_group_contexts ms).*1 ∧
  (∀ f ctxs, (f, ctxs) ∈ _group_contexts ms → ctxs ≠ []) ∧
  (∀ f, f ∈ (_group_contexts ms).*1 ↔ ∃ m, m ∈ ms ∧ file_name m = f) ∧
  group_total (_group_contexts ms) = length ms.
Proof.
  assert (group_total (_group_contexts ms) = length ms) as Htotal.
  { unfold _group_contexts. by rewrite group_loop_total. }
  cut (_group_contexts ms =
         (λ f, (f, contexts_of f ms)) <$> nub (file_name <$> ms) ∧
       NoDup (_group_contexts ms).*1 ∧
       (∀ f ctxs, (f, ctxs) ∈ _group_contexts ms → ctxs ≠ []) ∧
       (∀ f, f ∈ (_group_contexts ms).*1 ↔ ∃ m, m ∈ ms ∧ file_name m = f)).
  { intros (? & ? & ? & ?). done. }
  clear Htotal.
  assert (_group_contexts ms =
            (λ f, (f, contexts_of f ms)) <$> nub (file_name <$> ms)) as Heq.
  { unfold _group_contexts. exact (group_loop_spec [] ms). }
  assert ((_group_contexts ms).*1 = nub (file_name <$> ms)) as Hkeys.
  { rewrite Heq, <-list_fmap_compose. apply list_fmap_id. }
  split; [done|]. split; [rewrite Hkeys; apply NoDup_nub|]. split.
  - intros f ctxs. rewrite Heq.
    intros (f' & [= -> ->] & Hf)%list_elem_of_fmap.
    apply (proj1 (elem_of_nub _ _)) in Hf.
    apply list_elem_of_fmap in Hf as (m & -> & Hm).
    unfold contexts_of. intros Hnil%fmap_nil_inv.
    assert (m ∈ filter (λ m', file_name m' = file_name m) ms) as Hin
      by (by apply list_elem_of_filter).
    rewrite Hnil in Hin. by apply not_elem_of_nil in Hin.
  - intros f. rewrite Hkeys, elem_of_nub, list_elem_of_fmap. split.
    + intros (m & -> & Hm). by exists m.
    + intros (m & Hm & <-). by exists m.
Qed.

Section Checked.

Variable checker : nat → str → option str.






(** X17.  The judge reads whatever the extractor's output path holds.  A
    call of [extract_content] on a new instance that finds matches makes
    the judge work on exactly those matches; a call that finds none writes
    nothing, so the judge works on the file that was there before, and
    raises when there was none. *)
Theorem judge_after_extract (lower : str → str) (n : nat)
  (disk : option (list Match)) (W L : Z) (txt_files : list txt)
  (search_terms : list str) (case_sensitive : bool) (r : ContentExtractor) :
  extract_content lower n (__init__ disk W L) txt_files search_terms
    case_sensitive = Some r →
  (matches r ≠ [] →
   judge_content checker (output_file r) =
   _process_contexts checker (_group_contexts (matches r))) ∧
  (matches r = [] →
   judge_content checker (output_file r) = judge_content checker disk) ∧
  (matches r = [] → disk = None →
   judge_content checker (output_file r) = None).
Proof.
  intros (alone & _ & _ & _ & Hsome & Hnone)%extract_content_appends.
  split; [|split].
  - intros Hne. by rewrite (Hsome Hne).
  - intros Hnil. by rewrite (Hnone Hnil).
  - intros Hnil ->. by rewrite (Hnone Hnil).
Qed.

End Checked.

Lemma paragraph_loop_app (combined : str) (i : nat) (contexts : list str) :
  paragraph_loop combined i contexts =
  combined ++ paragraph_loop [] i contexts.
Proof.
  revert combined i. induction contexts as [|ctx rest IH]; intros combined i.
  - by rewrite app_nil_r.
  - cbn [paragraph_loop]. rewrite IH, (IH ([] ++ _)). by rewrite <-app_assoc.
Qed.

Lemma paragraph_loop_holds (i j : nat) (contexts : list str) (ctx : str) :
  contexts !! j = Some ctx →
  substring (paragraph (i + j) ctx) (paragraph_loop [] i contexts).
Proof.
  revert i j. induction contexts as [|c rest IH]; intros i j; [done|].
  cbn [paragraph_loop]. rewrite paragraph_loop_app, app_nil_l.
  destruct j as [|j]; cbn [lookup list_lookup].
  - intros [= ->]. rewrite Nat.add_0_r. exists [], (paragraph_loop [] (S i) rest).
    done.
  - intros Hj. destruct (IH (S i) j Hj) as (pre & post & Heq).
    replace (i + S j)%nat with (S i + j)%nat by lia.
    exists (paragraph i c ++ pre), post. rewrite Heq. by rewrite <-app_assoc.
Qed.

(** X16.  The text [_combine_contexts] builds starts with the heading that
    gives the number of contexts, and holds, for every context, its
    numbered paragraph (counted from 1) with the context itself unchanged
    in it. *)
Theorem combine_contexts_holds (contexts : list str) :
  heading (length contexts) `prefix_of` _combine_contexts contexts ∧
  ∀ (j : nat) ctx, contexts !! j = Some ctx →
    substring (paragraph (S j) ctx) (_combine_contexts contexts) ∧
    substring ctx (_combine_contexts contexts).
Proof.
  unfold _combine_contexts. fold (heading (length contexts)).
  rewrite paragraph_loop_app. split; [by apply prefix_app_r|].
  intros j ctx Hj.
  destruct (paragraph_loop_holds 1 j contexts ctx Hj) as (pre & post & Heq).
  assert (substring (paragraph (S j) ctx)
            (heading (length contexts) ++ paragraph_loop [] 1 contexts)) as Hp.
  { exists (heading (length contexts) ++ pre), post.
    rewrite Heq. by rewrite <-app_assoc. }
  split; [done|]. eapply substring_trans; [|exact Hp].
  unfold paragraph.
  exists (py "Paragraph " ++ str_of_nat (S j) ++ py ":" ++ [LF]), [LF; LF].
  by rewrite <-!app_assoc.
Qed.

End JudgeFacts.

Section JudgeRuns.
Import Extractor Judge.


Lemma judge_after_extract_witness :
  ∃ r, extract_content ascii_lower 40 (__init__ None 3 12) two_files run_terms
         false = Some r ∧
    (matches r ≠ [] →
     judge_content toy_checker (output_file r) =
     _process_contexts toy_checker (_group_contexts (matches r))) ∧
    (matches r = [] →
     judge_content toy_checker (output_file r) = judge_content toy_checker None) ∧
    (matches r = [] → @None (list Match) = None →
     judge_content toy_checker (output_file r) = None).
Proof.
  assert (∃ r, extract_content ascii_lower 40 (__init__ None 3 12) two_files
                 run_terms false = Some r) as [r Hrun].
  { vm_compute. eexists. reflexivity. }
  exists r. split; [exact Hrun|].
  exact (judge_after_extract toy_checker ascii_lower 40 None 3 12 two_files
           run_terms false r Hrun).
Defined.

End JudgeRuns.

(** * Properties of the parser *)

Section ParserFacts.
Import Extractor Parser.

Implicit Types (d : gmap string str) (pdfs : list pdf) (name : string).

Lemma parse_single_lookup d (pdf_file : pdf) name :
  _parse_single_pdf d pdf_file !! name =
  match d !! name with
  | Some t => Some t
  | None =>
      if decide (txt_name pdf_file.1 = name)
      then join [10%N] <$> pdf_file.2 else None
  end.
Proof.
  unfold _parse_single_pdf. destruct pdf_file as [stem doc]. cbn [fst snd].
  destruct (decide (txt_name stem = name)) as [<-|Hne].
  - destruct (d !! txt_name stem) as [t|] eqn:Hd; [by rewrite Hd|].
    destruct doc as [pages|]; [by rewrite lookup_insert_eq|by rewrite Hd].
  - destruct (d !! txt_name stem); [by destruct (d !! name)|].
    destruct doc as [pages|]; [|by destruct (d !! name)].
    rewrite lookup_insert_ne by done. by destruct (d !! name).
Qed.

Lemma parse_all_lookup d pdfs name :
  parse_all_pdfs d pdfs !! name =
  match d !! name with
  | Some t => Some t
  | None => converted name pdfs
  end.
Proof.
  revert d. induction pdfs as [|pdf_file pdfs IH]; intros d.
  - cbn. by destruct (d !! name).
  - cbn [parse_all_pdfs]. rewrite IH, parse_single_lookup.
    unfold converted. cbn [omap list_omap].
    destruct (d !! name); [done|].
    destruct (decide (txt_name pdf_file.1 = name)); [|done].
    by destruct (pdf_file.2).
Qed.

(** X18.  After [parse_all_pdfs] a text file that was there before holds
    what it held (nothing is converted again or overwritten), and any
    other name holds the text of the first PDF of the listing with that
    text name that can be converted, if there is one.  So a second run
    over the same listing changes nothing. *)
Theorem parse_all_pdfs_result d pdfs :
  (∀ name,
     parse_all_pdfs d pdfs !! name =
     match d !! name with
     | Some t => Some t
     | None => converted name pdfs
     end) ∧
  (∀ name t, d !! name = Some t → parse_all_pdfs d pdfs !! name = Some t) ∧
  parse_all_pdfs (parse_all_pdfs d pdfs) pdfs = parse_all_pdfs d pdfs.
Proof.
  split; [apply parse_all_lookup|]. split.
  - intros name t Hd. by rewrite parse_all_lookup, Hd.
  - apply map_eq. intros name. rewrite !parse_all_lookup.
    destruct (d !! name); [done|]. by destruct (converted name pdfs).
Qed.

Lemma string_length_app (s t : string) :
  String.length (s +:+ t) = (String.length s + String.length t)%nat.
Proof. induction s as [|a s IH]; [done|]. simpl. by rewrite IH. Qed.

Lemma txt_name_inj (s1 s2 : string) : txt_name s1 = txt_name s2 → s1 = s2.
Proof.
  unfold txt_name. revert s2. induction s1 as [|a s1 IH]; intros [|b s2] H.
  - done.
  - apply (f_equal String.length) in H. simpl in H.
    rewrite string_length_app in H. simpl in H. lia.
  - apply (f_equal String.length) in H. simpl in H.
    rewrite string_length_app in H. simpl in H. lia.
  - simpl in H. injection H as -> H. f_equal. by apply IH.
Qed.

Lemma converted_Some name pdfs t :
  NoDup pdfs.*1 →
  converted name pdfs = Some t ↔
  ∃ stem pages, (stem, Some pages) ∈ pdfs ∧ txt_name stem = name ∧
    t = join [10%N] pages.
Proof.
  unfold converted. induction pdfs as [|[stem doc] pdfs IH]; intros Hnd.
  - split; [done|]. intros (? & ? & []%not_elem_of_nil & _).
  - rewrite fmap_cons in Hnd. apply NoDup_cons in Hnd as [Hstem Hnd].
    specialize (IH Hnd). cbn [omap list_omap fst snd].
    destruct (decide (txt_name stem = name)) as [<-|Hne].
    + destruct doc as [pages|]; cbn [fmap option_fmap option_map head].
      * split.
        -- intros [= <-]. exists stem, pages. split; [by left|done].
        -- intros (stem' & pages' & Hin & ->%txt_name_inj & ->).
           apply elem_of_cons in Hin as [[= ->]|Hin]; [done|].
           exfalso. apply Hstem. apply list_elem_of_fmap.
           by exists (stem, Some pages').
      * rewrite IH. split.
        -- intros (stem' & pages' & Hin & ->%txt_name_inj & ->).
           exfalso. apply Hstem. apply list_elem_of_fmap.
           by exists (stem, Some pages').
        -- intros (stem' & pages' & Hin & ->%txt_name_inj & ->).
           apply elem_of_cons in Hin as [[=]|Hin].
           exfalso. apply Hstem. apply list_elem_of_fmap.
           by exists (stem, Some pages').
    + rewrite IH. split.
      * intros (stem' & pages' & Hin & Hn & ->).
        exists stem', pages'. split; [by right|done].
      * intros (stem' & pages' & Hin & Hn & ->).
        apply elem_of_cons in Hin as [[= -> <-]|Hin]; [done|].
        by exists stem', pages'.
Qed.

(** X19.  For PDFs with distinct stems the result of [parse_all_pdfs] does
    not depend on the order in which the directory lists them. *)
Theorem parse_all_pdfs_order d pdfs pdfs' :
  NoDup pdfs.*1 → pdfs ≡ₚ pdfs' →
  parse_all_pdfs d pdfs = parse_all_pdfs d pdfs'.
Proof.
  intros Hnd Hperm.
  assert (NoDup pdfs'.*1) as Hnd' by (by rewrite <-Hperm).
  apply map_eq. intros name. rewrite !parse_all_lookup.
  destruct (d !! name); [done|].
  apply option_eq. intros t. rewrite !converted_Some by done.
  by setoid_rewrite Hperm.
Qed.

Lemma parse_all_pdfs_order_witness :
  NoDup two_pdfs.*1 ∧ two_pdfs ≡ₚ reverse two_pdfs ∧
  parse_all_pdfs ∅ two_pdfs = parse_all_pdfs ∅ (reverse two_pdfs).
Proof.
  assert (NoDup two_pdfs.*1) as Hnd.
  { cbn. repeat constructor; rewrite ?elem_of_cons, ?elem_of_nil;
      intros H; repeat destruct H as [H|H]; done. }
  assert (two_pdfs ≡ₚ reverse two_pdfs) as Hperm
    by (symmetry; apply reverse_Permutation).
  split; [exact Hnd|]. split; [exact Hperm|].
  exact (parse_all_pdfs_order ∅ two_pdfs (reverse two_pdfs) Hnd Hperm).
Defined.

End ParserFacts.

(** * Properties of the getter *)

Section GetterFacts.
Import Py Extractor Getter.

Implicit Types (d b : gmap string json) (locs : list (gmap string json)).

Lemma bind_some {A B} (x : A) (k : A → option B) : Some x ≫= k = k x.
Proof. done. Qed.

Lemma scan_locations_dicts locs :
  scan_locations (JDict <$> locs) =
  Some (head (filter (λ v, truthy v = true) (locs ≫= location_links))).
Proof.
  induction locs as [|l locs IH]; [done|].
  rewrite fmap_cons, bind_cons. cbn [scan_locations get].
  unfold location_links at 1. cbn [app].
  rewrite bind_some.
  destruct (truthy (default JNull (l !! "url_for_pdf"))) eqn:Hu.
  - rewrite bind_some, Hu. by rewrite filter_cons_True by done.
  - rewrite bind_some, filter_cons_False by congruence.
    destruct (truthy (default JNull (l !! "pdf_url"))) eqn:Hp.
    + by rewrite filter_cons_True by done.
    + rewrite filter_cons_False by congruence. exact IH.
Qed.

(** X20.  For an answer with status 200 whose [is_oa] is true, whose best
    location is an object (or missing) and whose other locations are a
    list of objects (or missing), [get_paper_by_doi] returns the first link
    that is not empty in this order: the best location's [pdf_url], then its
    [url_for_pdf], then for each other location in turn its [url_for_pdf]
    and then its [pdf_url]; and nothing when there is no such link. *)
Theorem get_paper_by_doi_first_link d b locs (is_oa : json) :
  d !! "is_oa" = Some is_oa → truthy is_oa = true →
  default (JDict ∅) (d !! "best_oa_location") = JDict b →
  default (JList []) (d !! "oa_locations") = JList (JDict <$> locs) →
  get_paper_by_doi (Some (200, Some (JDict d))) =
  head (filter (λ v, truthy v = true) (candidates b locs)).
Proof.
  intros His Htrue Hbest Hlocs.
  unfold get_paper_by_doi, select_pdf_url, candidates, best_links.
  cbn [Z.eqb Pos.eqb get app]. rewrite bind_some, His.
  simpl (default _ (Some _)). rewrite Htrue, bind_some, Hbest.
  cbn [get]. rewrite bind_some.
  destruct (truthy (default JNull (b !! "pdf_url"))) eqn:Hu.
  - rewrite bind_some, Hu. cbn [negb]. rewrite bind_some, Hu.
    by rewrite filter_cons_True by done.
  - rewrite bind_some, filter_cons_False by congruence.
    destruct (truthy (default JNull (b !! "url_for_pdf"))) eqn:Hp.
    + cbn [negb]. rewrite bind_some, Hp.
      by rewrite filter_cons_True by done.
    + cbn [negb]. rewrite filter_cons_False by congruence.
      rewrite bind_some, Hlocs. cbn [items iter ret].
      rewrite bind_some, scan_locations_dicts, !bind_some.
      destruct (head _) as [v|] eqn:Hv;
        [simpl (default _ (Some _))|simpl (default _ None)].
      * assert (truthy v = true) as ->; [|done].
        apply head_Some_elem_of in Hv.
        by apply list_elem_of_filter in Hv as [? _].
      * by rewrite Hp.
Qed.

Lemma get_paper_by_doi_first_link_witness :
  sample_answer !! "is_oa" = Some (JBool true) ∧
  truthy (JBool true) = true ∧
  get_paper_by_doi (Some (200, Some (JDict sample_answer))) =
  Some (JStr "q").
Proof.
  split; [reflexivity|]. split; [reflexivity|].
  exact (get_paper_by_doi_first_link sample_answer {["url" := JStr "u"]}
           [{["pdf_url" := JStr ""]};
            <["pdf_url" := JStr "p"]> {["url_for_pdf" := JStr "q"]}]
           (JBool true) eq_refl eq_refl eq_refl eq_refl).
Defined.

Lemma select_pdf_url_truthy (data u : json) :
  select_pdf_url data = Some (Some u) → truthy u = true.
Proof.
  unfold select_pdf_url. intros H.
  apply bind_Some in H as (is_oa & _ & H).
  destruct (truthy is_oa); [|done].
  apply bind_Some in H as (best & _ & H).
  apply bind_Some in H as (u1 & _ & H).
  apply bind_Some in H as (p1 & _ & H).
  apply bind_Some in H as (p2 & _ & H).
  destruct (truthy p2) eqn:Hp2; [|done]. by injection H as <-.
Qed.

(** X21.  [get_paper_by_doi] never returns an empty link, and returns
    nothing when the request raises, when the status is not 200, when the
    answer is no object, when [is_oa] is missing or false, and, for an
    answer with a true [is_oa], when [best_oa_location] is present and is
    no object (a JSON null, say), whatever the other locations hold. *)
Theorem get_paper_by_doi_nothing (response : option (Z * option json))
  (status : Z) (data best : json) d :
  (∀ u, get_paper_by_doi response = Some u → truthy u = true) ∧
  get_paper_by_doi None = None ∧
  (status ≠ 200 → get_paper_by_doi (Some (status, Some data)) = None) ∧
  (is_dict data = false → get_paper_by_doi (Some (200, Some data)) = None) ∧
  (truthy (default JNull (d !! "is_oa")) = false →
   get_paper_by_doi (Some (200, Some (JDict d))) = None) ∧
  (d !! "best_oa_location" = Some best → is_dict best = false →
   get_paper_by_doi (Some (200, Some (JDict d))) = None).
Proof.
  split; [|split; [done|split; [|split; [|split]]]].
  - intros u. unfold get_paper_by_doi.
    destruct response as [[st [body|]]|]; try done;
      destruct (st =? 200); try done.
    destruct (select_pdf_url body) as [[v|]|] eqn:Hsel; try done.
    intros [= ->]. by eapply select_pdf_url_truthy.
  - intros Hst. unfold get_paper_by_doi.
    by destruct (Z.eqb_spec status 200).
  - intros Hd. by destruct data.
  - intros Hoa. unfold get_paper_by_doi, select_pdf_url.
    cbn [Z.eqb Pos.eqb get]. by rewrite bind_some, Hoa.
  - intros Hbest Hnd. unfold get_paper_by_doi, select_pdf_url.
    cbn [Z.eqb Pos.eqb get]. rewrite bind_some, Hbest.
    simpl (default _ (Some _)).
    destruct (truthy _); [|done]. rewrite bind_some. by destruct best.
Qed.

Lemma get_paper_by_doi_nothing_witness :
  get_paper_by_doi (Some (404, Some JNull)) = None ∧
  get_paper_by_doi (Some (200, Some (JList []))) = None ∧
  get_paper_by_doi (Some (200, Some (JDict ∅))) = None ∧
  get_paper_by_doi
    (Some (200, Some (JDict (<["best_oa_location" := JNull]> sample_answer))))
  = None.
Proof.
  destruct (get_paper_by_doi_nothing None 404 JNull JNull ∅)
    as (_ & _ & Hst & _).
  destruct (get_paper_by_doi_nothing None 200 (JList []) JNull ∅)
    as (_ & _ & _ & Hd & Hoa & _).
  destruct (get_paper_by_doi_nothing None 200 JNull JNull
              (<["best_oa_location" := JNull]> sample_answer))
    as (_ & _ & _ & _ & _ & Hbest).
  split; [apply Hst; lia|]. split; [apply Hd; reflexivity|].
  split; [apply Hoa; reflexivity|]. apply Hbest; reflexivity.
Defined.

Lemma find_scan_absent (c : N) (s : str) (i : Z) :
  c ∉ s → find_scan [c] s i = -1.
Proof.
  revert i. induction s as [|a s IH]; intros i Hc; [done|].
  apply not_elem_of_cons in Hc as [Hca Hc]. cbn [find_scan startswith].
  rewrite bool_decide_false by done. cbn [andb]. by apply IH.
Qed.

Lemma find_scan_first (c : N) (pre rest : str) (i : Z) :
  c ∉ pre → find_scan [c] (pre ++ c :: rest) i = i + len pre.
Proof.
  revert i. induction pre as [|a pre IH]; intros i Hc.
  - cbn [app find_scan startswith]. rewrite bool_decide_true by done.
    cbn. unfold len. simpl. lia.
  - apply not_elem_of_cons in Hc as [Hca Hc]. cbn [app find_scan startswith].
    rewrite bool_decide_false by done. cbn [andb]. rewrite IH by done.
    unfold len. simpl length. lia.
Qed.

Lemma rfind_scan_absent (c : N) (s : str) (i : Z) :
  c ∉ s → rfind_scan [c] s i = -1.
Proof.
  revert i. induction s as [|a s IH]; intros i Hc; [done|].
  apply not_elem_of_cons in Hc as [Hca Hc]. cbn [rfind_scan startswith].
  rewrite IH by done. cbn [Z.eqb]. by rewrite bool_decide_false by done.
Qed.

Lemma rfind_scan_last (c : N) (s post : str) (i : Z) :
  0 ≤ i → c ∉ post → rfind_scan [c] (s ++ c :: post) i = i + len s.
Proof.
  revert i. induction s as [|a s IH]; intros i Hi Hc.
  - cbn [app rfind_scan startswith]. rewrite rfind_scan_absent by done.
    cbn [Z.eqb]. rewrite bool_decide_true by done. cbn. unfold len. simpl. lia.
  - cbn [app rfind_scan]. rewrite IH by (done || lia).
    pose proof (len_nonneg s).
    destruct (Z.eqb_spec (i + 1 + len s) (-1)); [lia|].
    unfold len. simpl length. lia.
Qed.

Lemma find_first (c : N) (pre rest : str) :
  c ∉ pre → find (pre ++ c :: rest) [c] 0 = len pre.
Proof.
  intros Hc. unfold find. cbn [Z.ltb Z.compare].
  rewrite (proj2 (Z.ltb_ge _ 0)) by lia.
  change (Z.to_nat 0) with 0%nat. rewrite drop_0, find_scan_first by done. lia.
Qed.

Lemma find_absent (c : N) (s : str) : c ∉ s → find s [c] 0 = -1.
Proof.
  intros Hc. unfold find. cbn [Z.ltb Z.compare].
  rewrite (proj2 (Z.ltb_ge _ 0)) by lia.
  change (Z.to_nat 0) with 0%nat. by rewrite drop_0, find_scan_absent.
Qed.

Lemma scihub_with_scheme (url : str) :
  (if negb (startswith (py "http") url) then py "https:" ++ url else url)
  = with_scheme url.
Proof. unfold with_scheme. by destruct (startswith _ url). Qed.

(** X22.  When the [onclick] attribute holds a link between two single
    quotes and has no other quote outside them, [download_from_scihub]
    takes exactly that link, with [https:] put in front unless it starts
    with [http]. *)
Theorem scihub_pdf_url_quoted (pre url post : str) :
  quote ∉ pre → quote ∉ post →
  scihub_pdf_url (pre ++ [quote] ++ url ++ [quote] ++ post) = with_scheme url.
Proof.
  intros Hpre Hpost. unfold scihub_pdf_url. rewrite scihub_with_scheme.
  f_equal. cbn [app]. rewrite find_first by done.
  unfold rfind.
  replace (pre ++ quote :: url ++ quote :: post)
    with ((pre ++ quote :: url) ++ quote :: post)
    by (by rewrite <-app_assoc).
  rewrite rfind_scan_last by done. rewrite Z.add_0_l.
  rewrite slice_take_drop.
  - rewrite len_app. unfold len. cbn [length].
    replace (Z.to_nat (Z.of_nat (length pre) + 1)) with (length (pre ++ [quote]))
      by (rewrite length_app; simpl; lia).
    replace ((pre ++ quote :: url) ++ quote :: post)
      with ((pre ++ [quote]) ++ url ++ quote :: post)
      by (by rewrite <-!app_assoc).
    rewrite drop_app_length. apply take_app_length'. lia.
  - pose proof (len_nonneg pre). lia.
  - rewrite !len_app. pose proof (len_nonneg (pre ++ quote :: url)).
    pose proof (len_nonneg (quote :: post)). rewrite len_app in *. lia.
Qed.

Lemma scihub_pdf_url_quoted_witness :
  (quote ∉ py "location.href=") ∧ (quote ∉ py ";") ∧
  scihub_pdf_url
    (py "location.href=" ++ [quote] ++ py "//x.org/a.pdf" ++ [quote] ++ py ";")
  = py "https://x.org/a.pdf".
Proof.
  assert (quote ∉ py "location.href=") as Hpre.
  { apply (bool_decide_unpack _). by vm_compute. }
  assert (quote ∉ py ";") as Hpost.
  { apply (bool_decide_unpack _). by vm_compute. }
  split; [exact Hpre|]. split; [exact Hpost|].
  exact (scihub_pdf_url_quoted (py "location.href=") (py "//x.org/a.pdf")
           (py ";") Hpre Hpost).
Defined.

(** X23.  Without any single quote in the attribute, the link taken is the
    whole attribute but its last character; with exactly one quote it is
    the empty string; in both cases with the scheme rule applied, so that
    one quote gives the link [https:]. *)
Theorem scihub_pdf_url_unquoted (s pre post : str) :
  (quote ∉ s →
   scihub_pdf_url s = with_scheme (take (length s - 1) s)) ∧
  (quote ∉ pre → quote ∉ post →
   scihub_pdf_url (pre ++ [quote] ++ post) = py "https:").
Proof.
  split.
  - intros Hs. unfold scihub_pdf_url. rewrite scihub_with_scheme. f_equal.
    rewrite find_absent by done. unfold rfind.
    rewrite rfind_scan_absent by done.
    unfold slice, clip_index. change (-1 + 1) with 0.
    cbn [Z.ltb Z.compare]. rewrite Z.min_l by lia.
    change (Z.to_nat 0) with 0%nat. rewrite drop_0. f_equal. lia.
  - intros Hpre Hpost. unfold scihub_pdf_url. cbn [app].
    rewrite find_first by done. unfold rfind.
    rewrite rfind_scan_last by done. rewrite Z.add_0_l.
    pose proof (len_nonneg pre). pose proof (len_nonneg post).
    assert (slice (pre ++ quote :: post) (len pre + 1) (len pre) = []) as ->.
    { rewrite slice_take_drop; [|lia|].
      - replace (Z.to_nat (len pre - (len pre + 1))) with 0%nat by lia. done.
      - rewrite len_app. unfold len in *. simpl length. lia. }
    done.
Qed.

Lemma scihub_pdf_url_unquoted_witness :
  (quote ∉ py "go()") ∧
  scihub_pdf_url (py "go()") = py "https:go(" ∧
  (quote ∉ py "a") ∧ (quote ∉ py "b") ∧
  scihub_pdf_url (py "a" ++ [quote] ++ py "b") = py "https:".
Proof.
  assert (quote ∉ py "go()") as Hs
    by (apply (bool_decide_unpack _); by vm_compute).
  assert (quote ∉ py "a") as Ha
    by (apply (bool_decide_unpack _); by vm_compute).
  assert (quote ∉ py "b") as Hb
    by (apply (bool_decide_unpack _); by vm_compute).
  destruct (scihub_pdf_url_unquoted (py "go()") (py "a") (py "b"))
    as [Hnone Hone].
  split; [exact Hs|]. split; [exact (Hnone Hs)|].
  split; [exact Ha|]. split; [exact Hb|]. exact (Hone Ha Hb).
Defined.

End GetterFacts.
